(** * glyphsLib.builder.ufo: a shallow embedding of the Glyphs-to-UFO builder

    The definitions below transcribe functions of
    [Lib/glyphsLib/builder/ufo.py].  Python dictionaries whose iteration
    order is observable (the kerning table read from the source) are
    association lists; dictionaries used as maps ([ufo.kerning],
    [ufo.groups], [ufo.lib], [seen]) are [gmap]s; an exception raised by the
    Python code is the result [None]; calls to [logger] append a structured
    record to a log that is threaded through the functions. *)

From Stdlib Require Import ZArith QArith Qround Ascii.
From stdpp Require Import gmap strings list fin_maps.

Local Open Scope Z_scope.

(** ** Strings *)

Module Str.

(** [s.startswith(p)], returning the remainder of [s] after [p]. *)
Fixpoint strip_prefix (p s : string) : option string :=
  match p, s with
  | EmptyString, _ => Some s
  | String a p', String b s' =>
      if decide (a = b) then strip_prefix p' s' else None
  | String _ _, EmptyString => None
  end.

Definition startswith (s p : string) : bool :=
  match strip_prefix p s with Some _ => true | None => false end.

(** The longest prefix of [s] made of characters other than the newline:
    what a greedy [.+] or [.*] captures at the start of [s]. *)
Fixpoint dot_star (s : string) : string :=
  match s with
  | EmptyString => EmptyString
  | String c s' =>
      if decide (c = "010"%char) then EmptyString else String c (dot_star s')
  end.

(** [re.match(prefix + '(.+)', s)]: [None] when there is no match,
    otherwise [match.group(1)]. *)
Definition re_match_prefix_group (prefix s : string) : option string :=
  match strip_prefix prefix s with
  | None => None
  | Some rest =>
      match dot_star rest with
      | EmptyString => None
      | g => Some g
      end
  end.

(** [String c w :: ws] for a non-empty list of words [w :: ws]: the
    character [c] is put in front of the first word. *)
Definition cons_head (c : ascii) (ws : list string) : list string :=
  match ws with
  | [] => [String c EmptyString]
  | w :: ws' => String c w :: ws'
  end.

(** [s.split(sep)] for a separator of one character. *)
Fixpoint split (sep : ascii) (s : string) : list string :=
  match s with
  | EmptyString => [EmptyString]
  | String c s' =>
      if decide (c = sep) then EmptyString :: split sep s'
      else cons_head c (split sep s')
  end.

(** [sep in s] for a separator of one character. *)
Fixpoint contains (sep : ascii) (s : string) : bool :=
  match s with
  | EmptyString => false
  | String c s' => if decide (c = sep) then true else contains sep s'
  end.

(** [s.split(sep, 1)] when [sep in s]: the text before the first separator
    and the text after it; [None] when [s] has no separator. *)
Fixpoint split_once (sep : ascii) (s : string) : option (string * string) :=
  match s with
  | EmptyString => None
  | String c s' =>
      if decide (c = sep) then Some (EmptyString, s')
      else match split_once sep s' with
           | Some (k, v) => Some (String c k, v)
           | None => None
           end
  end.

(** [c.lower()] on the ASCII letters. *)
Definition lower_ascii (c : ascii) : ascii :=
  let n := nat_of_ascii c in
  if (65 <=? n)%nat && (n <=? 90)%nat then ascii_of_nat (n + 32) else c.

(** [s.lower()] *)
Fixpoint lower (s : string) : string :=
  match s with
  | EmptyString => EmptyString
  | String c s' => String (lower_ascii c) (lower s')
  end.

(** [re.split(sep + '+', s)] for a class [sep] of characters; [in_run] says
    that the character before [s] belongs to a run of separators. *)
Fixpoint re_split_run (sep : ascii -> bool) (in_run : bool) (s : string)
    : list string :=
  match s with
  | EmptyString => [EmptyString]
  | String c s' =>
      if sep c then
        if in_run then re_split_run sep true s'
        else EmptyString :: re_split_run sep true s'
      else cons_head c (re_split_run sep false s')
  end.

Definition space_or_comma (c : ascii) : bool :=
  bool_decide (c = " "%char) || bool_decide (c = ","%char).

(** [re.split('[ ,]+', s)] *)
Definition re_split_space_comma (s : string) : list string :=
  re_split_run space_or_comma false s.

(** The ASCII characters for which [str.isspace] holds. *)
Definition is_space (c : ascii) : bool :=
  let n := nat_of_ascii c in
  ((9 <=? n)%nat && (n <=? 13)%nat) || ((28 <=? n)%nat && (n <=? 32)%nat).

(** [s.split()]: the maximal runs of characters that are not white space;
    [cur] is the run being read, [None] between two runs. *)
Fixpoint split_ws_from (cur : option string) (s : string) : list string :=
  match s with
  | EmptyString => match cur with Some w => [w] | None => [] end
  | String c s' =>
      if is_space c then
        match cur with
        | Some w => w :: split_ws_from None s'
        | None => split_ws_from None s'
        end
      else
        split_ws_from
          (Some (default EmptyString cur +:+ String c EmptyString)) s'
  end.

Definition split_ws (s : string) : list string := split_ws_from None s.

(** [sep.join(l)] *)
Fixpoint join (sep : string) (l : list string) : string :=
  match l with
  | [] => EmptyString
  | [w] => w
  | w :: rest => w +:+ sep +:+ join sep rest
  end.

(** [s.endswith(p)] *)
Definition endswith (s p : string) : bool :=
  bool_decide (String.substring (String.length s - String.length p)
                 (String.length p) s = p)
  && (String.length p <=? String.length s)%nat.

End Str.

(** ** Log records

    One constructor per [logger] call of the module, carrying the values
    that the call formats into its message. *)

Definition kern_pair : Type := string * string.
Definition kern_rule : Type := string * string * Z.

Inductive log_record : Type :=
| WarnNonExistentClass (cls : string)
| WarnConflictingKerning (styleName : string) (pair : kern_pair)
    (existing_rule rule : kern_rule)
| ErrorFilterName (filter_str : string)
| ErrorFilterNotLast (key elem : string).

Global Instance log_record_eq_dec : EqDecision log_record.
Proof. solve_decision. Defined.

(** ** Values of a [lib] dictionary *)

Inductive lib_value : Type :=
| VInt (z : Z)
| VStr (s : string)
| VBool (b : bool)
| VNames (l : list string).

Global Instance lib_value_eq_dec : EqDecision lib_value.
Proof. solve_decision. Defined.

(** ** Source data (the Glyphs object graph), restricted to the attributes
    that the embedded functions read.  Coordinates, widths and kerning values
    are integers. *)

Record Node : Type := mkNode {
  node_position : Z * Z;
  node_type : string;
  node_smooth : bool
}.

Record Path : Type := mkPath {
  path_nodes : list Node;
  path_closed : bool
}.

(** A custom parameter [p] with [p.name] and [p.value]. *)
Definition custom_parameter : Type := string * lib_value.

Record Instance : Type := mkInstance {
  instance_name : string;
  instance_customParameters : list custom_parameter
}.

(** The attributes of a source glyph and of one of its layers read by the
    category and width statements of [load_glyph]. *)
Record GlyphData : Type := mkGlyphData {
  gd_category : option string;
  gd_subCategory : option string
}.

Record Layer : Type := mkLayer {
  layer_width : option Z;
  layer_paths : list Path
}.

(** The record returned by [glyphsLib.glyphdata.get_glyph]. *)
Record GlyphInfo : Type := mkGlyphInfo {
  gi_category : option string;
  gi_subCategory : option string
}.

(** ** Target data (defcon objects) *)

(** A defcon anchor: [anchor.name] and [anchor['x']], either of which may be
    missing.  The coordinate is a number that need not be an integer; it is
    a rational here. *)
Record Anchor : Type := mkAnchor {
  anchor_name : option string;
  anchor_x : option Q
}.

Record Glyph : Type := mkGlyph {
  glyph_name : string;
  glyph_width : Z;
  glyph_lib : gmap string lib_value;
  glyph_anchors : list Anchor
}.

(** The target font (a defcon [Font]), restricted to what the embedded
    functions read and write; [glyphs] is the iteration [for glyph in ufo]. *)
Record Font : Type := mkFont {
  info_styleName : string;
  lib : gmap string lib_value;
  groups : gmap string (list string);
  kerning : gmap kern_pair Z;
  glyphs : list Glyph
}.

Definition set_kerning (ufo : Font) (k : gmap kern_pair Z) : Font :=
  mkFont (info_styleName ufo) (lib ufo) (groups ufo) k (glyphs ufo).

Definition set_lib (ufo : Font) (l : gmap string lib_value) : Font :=
  mkFont (info_styleName ufo) l (groups ufo) (kerning ufo) (glyphs ufo).

(** Calls received by a point pen, in order.  [segmentType] is [None] for
    the Python value [None]; [smooth] is [None] when the call does not pass
    the argument. *)
Inductive pen_call : Type :=
| beginPath
| addPoint (pt : Z * Z) (segmentType : option string) (smooth : option bool)
| endPath.

Global Instance pen_call_eq_dec : EqDecision pen_call.
Proof. solve_decision. Defined.

(** ** Kerning: [load_kerning] and [remove_rule_if_conflict] *)

Module Kerning.

(** A class-to-glyph entry collected by [load_kerning]:
    [(classname, glyph, is_left_class)]. *)
Definition class_glyph_pair : Type := string * string * bool.

Definition seen_table : Type := gmap kern_pair kern_rule.

(** [(member, glyph) if is_left_class else (glyph, member)] *)
Definition mk_pair (is_left_class : bool) (member glyph : string) : kern_pair :=
  if is_left_class then (member, glyph) else (glyph, member).

(** The loop over [old_glyphs] in [remove_rule_if_conflict]; the state is
    [(new_glyphs, seen, log)], [kern] is [ufo.kerning], which the loop only
    reads. *)
Fixpoint scan_members (styleName : string) (kern : gmap kern_pair Z)
    (glyph : string) (is_left_class : bool) (val : Z) (rule : kern_rule)
    (members : list string)
    (new_glyphs : list string) (seen : seen_table) (log : list log_record)
    : list string * seen_table * list log_record :=
  match members with
  | [] => (new_glyphs, seen, log)
  | member :: rest =>
      let pair := mk_pair is_left_class member glyph in
      match seen !! pair with
      | Some existing_rule =>
          if bool_decide (existing_rule.2 ≠ val)
             && bool_decide (kern !! pair = None)
          then
            scan_members styleName kern glyph is_left_class val rule rest
              new_glyphs seen
              (log ++ [WarnConflictingKerning styleName pair existing_rule rule])
          else
            scan_members styleName kern glyph is_left_class val rule rest
              (new_glyphs ++ [member]) (<[pair := rule]> seen) log
      | None =>
          scan_members styleName kern glyph is_left_class val rule rest
            (new_glyphs ++ [member]) (<[pair := rule]> seen) log
      end
  end.

(** [for member in new_glyphs: ufo.kerning[pair] = val] *)
Definition reinsert_members (glyph : string) (is_left_class : bool) (val : Z)
    (new_glyphs : list string) (kern : gmap kern_pair Z) : gmap kern_pair Z :=
  foldl (fun k member => <[mk_pair is_left_class member glyph := val]> k)
        kern new_glyphs.

(** [remove_rule_if_conflict(ufo, seen, classname, glyph, is_left_class)].
    [None] is the [KeyError] of [ufo.kerning[original_pair]] or of
    [ufo.groups[classname]]. *)
Definition remove_rule_if_conflict (ufo : Font) (seen : seen_table)
    (log : list log_record) (classname glyph : string) (is_left_class : bool)
    : option (Font * seen_table * list log_record) :=
  let original_pair :=
    if is_left_class then (classname, glyph) else (glyph, classname) in
  match kerning ufo !! original_pair with
  | None => None
  | Some val =>
      let rule : kern_rule := (original_pair, val) in
      match groups ufo !! classname with
      | None => None
      | Some old_glyphs =>
          let '(new_glyphs, seen', log') :=
            scan_members (info_styleName ufo) (kerning ufo) glyph
              is_left_class val rule old_glyphs [] seen log in
          if bool_decide (new_glyphs ≠ old_glyphs) then
            Some (set_kerning ufo
                    (reinsert_members glyph is_left_class val new_glyphs
                       (delete original_pair (kerning ufo))),
                  seen', log')
          else Some (ufo, seen', log')
      end
  end.

(** The state of the two nested loops of [load_kerning]. *)
Definition load_state : Type :=
  Font * list class_glyph_pair * list log_record.

(** Body of [for right, kerning_val in pairs.items()]; [left] has already
    been rewritten when it is a class. *)
Definition load_right (left : string) (left_is_class : bool)
    (st : load_state) (entry : string * Z) : load_state :=
  let '(ufo, class_glyph_pairs, log) := st in
  let '(right0, kerning_val) := entry in
  let store (right : string) (right_is_class : bool) : load_state :=
    let class_glyph_pairs' :=
      if bool_decide (left_is_class ≠ right_is_class) then
        class_glyph_pairs ++
          [if left_is_class then (left, right, true)
           else (right, left, false)]
      else class_glyph_pairs in
    (set_kerning ufo (<[(left, right) := kerning_val]> (kerning ufo)),
     class_glyph_pairs', log) in
  match Str.re_match_prefix_group "@MMK_R_" right0 with
  | Some g =>
      let right := "public.kern2." +:+ g in
      match groups ufo !! right with
      | None => (ufo, class_glyph_pairs, log ++ [WarnNonExistentClass right])
      | Some _ => store right true
      end
  | None => store right0 false
  end.

(** Body of [for left, pairs in kerning_data.items()]. *)
Definition load_left (st : load_state)
    (entry : string * list (string * Z)) : load_state :=
  let '(ufo, class_glyph_pairs, log) := st in
  let '(left0, pairs) := entry in
  match Str.re_match_prefix_group "@MMK_L_" left0 with
  | Some g =>
      let left := "public.kern1." +:+ g in
      match groups ufo !! left with
      | None => (ufo, class_glyph_pairs, log ++ [WarnNonExistentClass left])
      | Some _ => foldl (load_right left true) st pairs
      end
  | None => foldl (load_right left0 false) st pairs
  end.

(** [for classname, glyph, is_left_class in reversed(class_glyph_pairs)] *)
Fixpoint conflict_pass (ufo : Font) (seen : seen_table)
    (log : list log_record) (todo : list class_glyph_pair)
    : option (Font * seen_table * list log_record) :=
  match todo with
  | [] => Some (ufo, seen, log)
  | (classname, glyph, is_left_class) :: rest =>
      match remove_rule_if_conflict ufo seen log classname glyph
              is_left_class with
      | None => None
      | Some (ufo', seen', log') => conflict_pass ufo' seen' log' rest
      end
  end.

(** [load_kerning(ufo, kerning_data)]: the font after the call and the
    records logged by it. *)
Definition load_kerning (ufo : Font)
    (kerning_data : list (string * list (string * Z)))
    : option (Font * list log_record) :=
  let '(ufo1, class_glyph_pairs, log1) :=
    foldl load_left (ufo, [], []) kerning_data in
  match conflict_pass ufo1 ∅ log1 (reverse class_glyph_pairs) with
  | None => None
  | Some (ufo2, _, log2) => Some (ufo2, log2)
  end.

End Kerning.

(** ** Paths: [draw_paths] *)

Module Drawing.

(** [if node_type not in ['line', 'curve', 'qcurve']: node_type = None] *)
Definition normalize_type (t : string) : option string :=
  if bool_decide (t ∈ ["line"; "curve"; "qcurve"]) then Some t else None.

(** Body of [for node in nodes]. *)
Definition draw_node (node : Node) : pen_call :=
  addPoint (node_position node) (normalize_type (node_type node))
           (Some (node_smooth node)).

(** [nodes.insert(0, nodes.pop())] on a non-empty list; the empty list
    does not reach this statement. *)
Definition rotate (nodes : list Node) : list Node :=
  match last nodes with
  | Some node => node :: removelast nodes
  | None => []
  end.

(** Body of [for path in paths]: the calls that the pen has received when
    the iteration ends, or [None] when the assertion fails. *)
Definition draw_path (pen : list pen_call) (path : Path)
    : option (list pen_call) :=
  let pen := pen ++ [beginPath] in
  match path_nodes path with
  | [] => Some (pen ++ [endPath])
  | node :: rest =>
      if negb (path_closed path) then
        if bool_decide (node_type node = "line") then
          Some (pen ++ [addPoint (node_position node) (Some "move") None]
                    ++ map draw_node rest ++ [endPath])
        else None
      else
        Some (pen ++ map draw_node (rotate (node :: rest)) ++ [endPath])
  end.

(** [draw_paths(pen, paths)] *)
Fixpoint draw_paths (pen : list pen_call) (paths : list Path)
    : option (list pen_call) :=
  match paths with
  | [] => Some pen
  | path :: rest =>
      match draw_path pen path with
      | None => None
      | Some pen' => draw_paths pen' rest
      end
  end.

End Drawing.

(** ** Glyphs: the category and width statements of [load_glyph], and the
  classification loop of [build_gdef] *)

Module Glyphs.
Section WithGlyphData.

(** [GLYPHLIB_PREFIX] of [glyphsLib.builder.constants],
    [glyphsLib.glyphdata.get_glyph] and [round] of [fontTools.misc.py23]
    are defined outside this file. *)
Variable GLYPHLIB_PREFIX : string.
Variable get_glyph : string -> GlyphInfo.
Variable round : Q -> Z.

Definition set_glyph_lib (g : Glyph) (l : gmap string lib_value) : Glyph :=
  mkGlyph (glyph_name g) (glyph_width g) l (glyph_anchors g).

Definition set_glyph_width (g : Glyph) (w : Z) : Glyph :=
  mkGlyph (glyph_name g) w (glyph_lib g) (glyph_anchors g).

(** [load_glyph], the statements that compute [category] and
    [subCategory]: an override of the source glyph is stored in the lib,
    a missing one is looked up in the glyph data. *)
Definition load_glyph_category (ufo_glyph : Glyph) (glyph_data : GlyphData)
    : Glyph * option string * option string :=
  let glyphinfo := get_glyph (glyph_name ufo_glyph) in
  let '(g1, category) :=
    match gd_category glyph_data with
    | None => (ufo_glyph, gi_category glyphinfo)
    | Some c =>
        (set_glyph_lib ufo_glyph
           (<[GLYPHLIB_PREFIX +:+ "category" := VStr c]> (glyph_lib ufo_glyph)),
         Some c)
    end in
  let '(g2, subCategory) :=
    match gd_subCategory glyph_data with
    | None => (g1, gi_subCategory glyphinfo)
    | Some c =>
        (set_glyph_lib g1
           (<[GLYPHLIB_PREFIX +:+ "subCategory" := VStr c]> (glyph_lib g1)),
         Some c)
    end in
  (g2, category, subCategory).

(** [load_glyph], the statements under "load width before background". *)
Definition load_glyph_width (ufo_glyph : Glyph) (layer : Layer)
    (category subCategory : option string) : Glyph :=
  match layer_width layer with
  | None => ufo_glyph
  | Some width =>
      if bool_decide (category = Some "Mark")
         && bool_decide (subCategory = Some "Nonspacing")
         && bool_decide (width > 0)
      then
        set_glyph_width
          (set_glyph_lib ufo_glyph
             (<[GLYPHLIB_PREFIX +:+ "originalWidth" := VInt width]>
                (glyph_lib ufo_glyph)))
          0
      else set_glyph_width ufo_glyph width
  end.

(** The two groups of statements in sequence, as they run in
    [load_glyph(ufo_glyph, layer, glyph_data)]. *)
Definition load_glyph_category_width (ufo_glyph : Glyph) (layer : Layer)
    (glyph_data : GlyphData) : Glyph :=
  let '(g, category, subCategory) :=
    load_glyph_category ufo_glyph glyph_data in
  load_glyph_width g layer category subCategory.

(** *** [build_gdef] *)

(** [lib.get(key)] followed by the fall-back on [None]; a lib value is
    equal to a string literal only when it is that string. *)
Definition lib_get_str (l : gmap string lib_value) (key : string)
    (default : option string) : option lib_value :=
  match l !! key with
  | Some v => Some v
  | None => VStr <$> default
  end.

(** [name and not name.startswith('_')] *)
Definition is_attaching (anchor : Anchor) : bool :=
  match anchor_name anchor with
  | None => false
  | Some name =>
      negb (bool_decide (name = "")) && negb (Str.startswith name "_")
  end.

(** [name and name.startswith('caret_') and 'x' in anchor] *)
Definition caret_of (anchor : Anchor) : option Q :=
  match anchor_name anchor, anchor_x anchor with
  | Some name, Some x =>
      if negb (bool_decide (name = "")) && Str.startswith name "caret_"
      then Some x else None
  | _, _ => None
  end.

(** [for anchor in glyph.anchors]: the final [has_attaching_anchor]. *)
Definition has_attaching_anchor (glyph : Glyph) : bool :=
  existsb is_attaching (glyph_anchors glyph).

Record gdef_classes : Type := mkClasses {
  bases : gset string;
  ligatures : gset string;
  marks : gset string;
  carets : gmap string (list Z)
}.

(** The [if]/[elif] chain that ends the loop body. *)
Definition classify (acc : gdef_classes) (glyph : Glyph)
    (category subCategory : option lib_value) : gdef_classes :=
  if bool_decide (subCategory = Some (VStr "Ligature"))
     && has_attaching_anchor glyph
  then mkClasses (bases acc) ({[glyph_name glyph]} ∪ ligatures acc)
                 (marks acc) (carets acc)
  else if bool_decide (category = Some (VStr "Mark"))
          && (bool_decide (subCategory = Some (VStr "Nonspacing"))
              || bool_decide (subCategory = Some (VStr "Spacing Combining")))
  then mkClasses (bases acc) (ligatures acc)
                 ({[glyph_name glyph]} ∪ marks acc) (carets acc)
  else if has_attaching_anchor glyph
  then mkClasses ({[glyph_name glyph]} ∪ bases acc) (ligatures acc)
                 (marks acc) (carets acc)
  else acc.

(** [carets.setdefault(glyph.name, []).append(round(anchor['x']))] for
    every caret anchor of the glyph. *)
Definition add_carets (acc : gdef_classes) (glyph : Glyph) : gdef_classes :=
  foldl (fun a anchor =>
           match caret_of anchor with
           | Some x =>
               mkClasses (bases a) (ligatures a) (marks a)
                 (<[glyph_name glyph :=
                      default [] (carets a !! glyph_name glyph)
                      ++ [round x]]>
                    (carets a))
           | None => a
           end)
        acc (glyph_anchors glyph).

(** [category] and [subCategory] as the loop body computes them: the
    override in [glyph.lib], else the value of the glyph data. *)
Definition glyph_category (glyph : Glyph) : option lib_value :=
  lib_get_str (glyph_lib glyph) (GLYPHLIB_PREFIX +:+ "category")
              (gi_category (get_glyph (glyph_name glyph))).

Definition glyph_subCategory (glyph : Glyph) : option lib_value :=
  lib_get_str (glyph_lib glyph) (GLYPHLIB_PREFIX +:+ "subCategory")
              (gi_subCategory (get_glyph (glyph_name glyph))).

(** Body of [for glyph in ufo]. *)
Definition gdef_glyph (acc : gdef_classes) (glyph : Glyph) : gdef_classes :=
  classify (add_carets acc glyph) glyph
           (glyph_category glyph) (glyph_subCategory glyph).

(** The three conditions of the [if]/[elif] chain, as propositions. *)
Definition ligature_cond (g : Glyph) : Prop :=
  glyph_subCategory g = Some (VStr "Ligature")
  ∧ has_attaching_anchor g = true.

Definition mark_cond (g : Glyph) : Prop :=
  glyph_category g = Some (VStr "Mark")
  ∧ (glyph_subCategory g = Some (VStr "Nonspacing")
     ∨ glyph_subCategory g = Some (VStr "Spacing Combining")).

(** The condition under which each branch of the chain is the one taken. *)
Definition in_ligatures (g : Glyph) : Prop := ligature_cond g.
Definition in_marks (g : Glyph) : Prop := ¬ ligature_cond g ∧ mark_cond g.
Definition in_bases (g : Glyph) : Prop :=
  ¬ ligature_cond g ∧ ¬ mark_cond g ∧ has_attaching_anchor g = true.

(** [build_gdef(ufo)] up to the end of its loop: the three glyph classes
    and the caret positions from which the GDEF text is printed. *)
Definition build_gdef_classes (ufo : Font) : gdef_classes :=
  foldl gdef_glyph (mkClasses ∅ ∅ ∅ ∅) (glyphs ufo).

End WithGlyphData.

(** An instance of [round] for the examples: the nearest integer, a tie
    going to the even one, as the built-in [round] of Python 3 that
    [fontTools.misc.py23] provides. *)
Definition round_half_even (x : Q) : Z :=
  let below := Qfloor x in
  match (x - inject_Z below ?= 1 # 2)%Q with
  | Lt => below
  | Gt => below + 1
  | Eq => if Z.even below then below else below + 1
  end.

End Glyphs.


(** ** Filters: [parse_glyphs_filter] *)

Module Filter.
Section WithCast.

(** [glyphsLib.util.cast_to_number_or_bool] is defined outside this file. *)
Variable cast_to_number_or_bool : string -> lib_value.

(** The dictionary returned by [parse_glyphs_filter]: the key ['name'] is
    always set, the keys ['args'], ['kwargs'], ['include'] and ['exclude']
    are [None] while they are missing. *)
Record filter_struct : Type := mkFilter {
  f_name : string;
  f_args : option (list lib_value);
  f_kwargs : option (gmap string lib_value);
  f_include : option (list string);
  f_exclude : option (list string)
}.

(** [result[key.lower()] = names] for a key that is ['include'] or
    ['exclude']. *)
Definition set_names (result : filter_struct) (lkey : string)
    (names : list string) : filter_struct :=
  if bool_decide (lkey = "include") then
    mkFilter (f_name result) (f_args result) (f_kwargs result)
             (Some names) (f_exclude result)
  else
    mkFilter (f_name result) (f_args result) (f_kwargs result)
             (f_include result) (Some names).

(** [result['kwargs'][key] = v], creating the dictionary when missing. *)
Definition set_kwarg (result : filter_struct) (key : string) (v : lib_value)
    : filter_struct :=
  mkFilter (f_name result) (f_args result)
           (Some (<[key := v]> (default ∅ (f_kwargs result))))
           (f_include result) (f_exclude result).

(** [result['args'].append(v)], creating the list when missing. *)
Definition add_arg (result : filter_struct) (v : lib_value) : filter_struct :=
  mkFilter (f_name result) (Some (default [] (f_args result) ++ [v]))
           (f_kwargs result) (f_include result) (f_exclude result).

(** Body of [for idx, elem in enumerate(elements[1:])]; [n] is
    [len(elements[1:])]. *)
Definition parse_elem (n : nat) (st : filter_struct * list log_record)
    (idx : nat) (elem : string) : filter_struct * list log_record :=
  let '(result, log) := st in
  if bool_decide (elem = "") then st
  else
    match Str.split_once ":" elem with
    | Some (key, value) =>
        if bool_decide (Str.lower key ∈ ["include"; "exclude"]) then
          if bool_decide (Z.of_nat idx ≠ Z.of_nat n - 1) then
            (result, log ++ [ErrorFilterNotLast key elem])
          else
            (set_names result (Str.lower key)
               (Str.re_split_space_comma value), log)
        else (set_kwarg result key (cast_to_number_or_bool value), log)
    | None => (add_arg result (cast_to_number_or_bool elem), log)
    end.

(** An element [key:value] whose key is [include] or [exclude], whatever
    the case of its letters: the elements that take the first branch of
    the test on [key.lower()]. *)
Definition names_elem (elem key value : string) : Prop :=
  Str.split_once ":" elem = Some (key, value)
  ∧ Str.lower key ∈ ["include"; "exclude"].

(** The loop, from the element of index [idx] on. *)
Fixpoint parse_elems (n idx : nat) (elems : list string)
    (st : filter_struct * list log_record)
    : filter_struct * list log_record :=
  match elems with
  | [] => st
  | elem :: rest => parse_elems n (S idx) rest (parse_elem n st idx elem)
  end.

(** [parse_glyphs_filter] after [elements = filter_str.split(';')]. *)
Definition parse_elements (filter_str : string) (elements : list string)
    : option filter_struct * list log_record :=
  match elements with
  | [] => (None, [])
  | name :: rest =>
      if bool_decide (name = "") then (None, [ErrorFilterName filter_str])
      else
        let '(result, log) :=
          parse_elems (length rest) 0 rest
            (mkFilter name None None None None, []) in
        (Some result, log)
  end.

(** [parse_glyphs_filter(filter_str)]: the returned dictionary ([None] for
    the Python [None]) and the records logged. *)
Definition parse_glyphs_filter (filter_str : string)
    : option filter_struct * list log_record :=
  parse_elements filter_str (Str.split ";" filter_str).

End WithCast.

(** Modelled from the spec: [cast_to_number_or_bool] of [glyphsLib.util],
    which is not part of this file; positional and keyword tokens are "cast
    to number/bool if they look numeric/boolean, else kept as string".  A
    token made of decimal digits is the number it writes, [true] and [false]
    are the Booleans, any other token stays a string. *)
Fixpoint digits_value (acc : Z) (s : string) : option Z :=
  match s with
  | EmptyString => Some acc
  | String c s' =>
      match Ascii.is_nat c with
      | Some d => digits_value (10 * acc + Z.of_nat d) s'
      | None => None
      end
  end.

Definition cast_decimal_or_bool (s : string) : lib_value :=
  if bool_decide (Str.lower s = "true") then VBool true
  else if bool_decide (Str.lower s = "false") then VBool false
  else match s with
       | EmptyString => VStr s
       | _ => match digits_value 0 s with
              | Some z => VInt z
              | None => VStr s
              end
       end.

End Filter.

(** ** [to_ufos]: glyph order and instances *)

Module ToUfos.

(** [for p in instance.customParameters]: the value of the last parameter
    named ['familyName'], [None] without one. *)
Definition instance_familyName (instance : Instance) : option lib_value :=
  foldl (fun familyName (p : custom_parameter) =>
           if bool_decide (p.1 = "familyName") then Some p.2 else familyName)
        None (instance_customParameters instance).

(** [familyName == family_name], where [family_name] is [None] or a
    string. *)
Definition familyName_matches (familyName : option lib_value)
    (family_name : option string) : bool :=
  match familyName, family_name with
  | None, None => true
  | Some (VStr s), Some name => bool_decide (s = name)
  | _, _ => false
  end.

(** [filter_instances_by_family(instances, family_name)], as the list of
    the instances it yields. *)
Fixpoint filter_instances_by_family (instances : list Instance)
    (family_name : option string) : list Instance :=
  match instances with
  | [] => []
  | instance :: rest =>
      if familyName_matches (instance_familyName instance) family_name
      then instance :: filter_instances_by_family rest family_name
      else filter_instances_by_family rest family_name
  end.

(** [to_ufos], the statements on [family_name] and [instances]: the list
    stored under ['data'] in [instance_data]. *)
Definition to_ufos_instances (source_family_name : string)
    (family_name : option string) (instances : list Instance)
    : list Instance :=
  match family_name with
  | None => instances
  | Some name =>
      let instance_family_name :=
        if bool_decide (name = source_family_name) then None
        else Some name in
      filter_instances_by_family instances instance_family_name
  end.

Section WithPrefix.

(** [PUBLIC_PREFIX] of [glyphsLib.builder.constants]. *)
Variable PUBLIC_PREFIX : string.

Definition glyphOrder_key : string := PUBLIC_PREFIX +:+ "glyphOrder".

(** [for glyph in font.glyphs]: the names appended to [glyph_order];
    [sorted_glyphset] is computed once, before the loop. *)
Definition append_missing (sorted_glyphset : gset string)
    (glyph_order : list string) (glyph_names : list string) : list string :=
  foldl (fun order glyph_name =>
           if bool_decide (glyph_name ∉ sorted_glyphset)
           then order ++ [glyph_name] else order)
        glyph_order glyph_names.

(** [to_ufos], the statements on [glyph_order]: [ufos] and
    [master_id_order] are the result of [generate_base_fonts],
    [glyph_names] the names of [font.glyphs] in order.  [None] is the
    [IndexError] of [master_id_order[0]], the [KeyError] of
    [ufos[master_id_order[0]]], or a stored glyph order that is not a list
    of names.  The list is stored in every font by the last loop, so the
    sharing of the list object between the fonts is not observable. *)
Definition to_ufos_glyph_order (glyph_names : list string)
    (ufos : gmap string Font) (master_id_order : list string)
    : option (gmap string Font) :=
  match master_id_order with
  | [] => None
  | master_id :: _ =>
      match ufos !! master_id with
      | None => None
      | Some first_ufo =>
          let initial :=
            match lib first_ufo !! glyphOrder_key with
            | Some (VNames l) => Some l
            | Some _ => None
            | None => Some []
            end in
          match initial with
          | None => None
          | Some glyph_order0 =>
              let sorted_glyphset : gset string := list_to_set glyph_order0 in
              let glyph_order :=
                append_missing sorted_glyphset glyph_order0 glyph_names in
              Some ((fun ufo =>
                       set_lib ufo
                         (<[glyphOrder_key := VNames glyph_order]> (lib ufo)))
                    <$> ufos)
          end
      end
  end.

End WithPrefix.
End ToUfos.

(** ** Style names: [build_style_name], [_get_linked_style],
    [build_stylemap_names] and their call in [generate_base_fonts] *)

Module StyleMap.

(** [s for s in l if s]: the strings that are neither [None] nor empty. *)
Definition truthy (l : list (option string)) : list string :=
  omap (fun s => match s with
                 | Some (String _ _ as w) => Some w
                 | _ => None
                 end) l.

(** [x or y] on strings. *)
Definition str_or (x y : string) : string :=
  match x with EmptyString => y | _ => x end.

(** [build_style_name(width, weight, custom, is_italic)] *)
Definition build_style_name (width weight custom : option string)
    (is_italic : bool) : string :=
  str_or (Str.join " "
            (truthy [custom; width; weight;
                     Some (if is_italic then "Italic" else "")]))
         "Regular".

(** The loop of [_get_linked_style] over the reversed parts;
    [linked_style] is the deque, [part :: linked_style] is [appendleft]. *)
Fixpoint strip_parts (parts : list string)
    (is_regular is_bold is_italic : bool) (linked_style : list string)
    : list string :=
  match parts with
  | [] => linked_style
  | part :: rest =>
      if bool_decide (part = "Regular") && is_regular then
        strip_parts rest false is_bold is_italic linked_style
      else if bool_decide (part = "Bold") && is_bold then
        strip_parts rest is_regular false is_italic linked_style
      else if bool_decide (part = "Italic") && is_italic then
        strip_parts rest is_regular is_bold false linked_style
      else strip_parts rest is_regular is_bold is_italic (part :: linked_style)
  end.

(** [_get_linked_style(style_name, is_bold, is_italic)] *)
Definition _get_linked_style (style_name : string) (is_bold is_italic : bool)
    : string :=
  Str.join " "
    (strip_parts (reverse (Str.split_ws style_name))
       (negb (is_bold || is_italic)) is_bold is_italic []).

(** [build_stylemap_names(family_name, style_name, is_bold, is_italic,
    linked_style)]: the pair [(styleMapFamilyName, styleMapStyleName)]. *)
Definition build_stylemap_names (family_name style_name : string)
    (is_bold is_italic : bool) (linked_style : option string)
    : string * string :=
  let styleMapStyleName :=
    str_or (Str.join " "
              (truthy [Some (if is_bold then "bold" else "");
                       Some (if is_italic then "italic" else "")]))
           "regular" in
  let linked_style' :=
    match linked_style with
    | None | Some EmptyString =>
        _get_linked_style style_name is_bold is_italic
    | Some l =>
        if bool_decide (l = "Regular")
        then _get_linked_style style_name is_bold is_italic
        else l
    end in
  let styleMapFamilyName :=
    match linked_style' with
    | EmptyString => family_name
    | _ => family_name +:+ " " +:+ linked_style'
    end in
  (styleMapFamilyName, styleMapStyleName).

(** The attributes of a master read for its style names. *)
Record Master : Type := mkMaster {
  master_width : option string;
  master_weight : option string;
  master_custom : option string;
  master_italicAngle : Z
}.

Record style_info : Type := mkStyleInfo {
  styleName : string;
  is_bold_flag : bool;
  styleMapFamilyName : string;
  styleMapStyleName : string
}.

(** [generate_base_fonts], the statements that set [ufo.info.styleName],
    [styleMapFamilyName] and [styleMapStyleName] of one master;
    [is_bold_flag] is the argument [is_bold] passed to
    [build_stylemap_names]. *)
Definition generate_base_fonts_style (family_name : string)
    (master : Master) : style_info :=
  let italic_angle := - master_italicAngle master in
  let is_italic := negb (bool_decide (italic_angle = 0)) in
  let width := master_width master in
  let style_name :=
    build_style_name
      (if bool_decide (width ≠ Some "Regular") then width else Some "")
      (master_weight master) (master_custom master) is_italic in
  let is_bold := bool_decide (style_name = "Bold") in
  let '(family, style) :=
    build_stylemap_names family_name style_name is_bold is_italic None in
  mkStyleInfo style_name is_bold family style.

End StyleMap.


(** ** Kerning groups *)

(** The attributes of a source glyph read by [add_glyph_to_groups]. *)
Record GSGlyph : Type := mkGSGlyph {
  gs_name : string;
  gs_rightKerningGroup : option string;
  gs_leftKerningGroup : option string
}.

Definition set_groups (ufo : Font) (g : gmap string (list string)) : Font :=
  mkFont (info_styleName ufo) (lib ufo) g (kerning ufo) (glyphs ufo).

Module Groups.

(** Body of the loop of [add_glyph_to_groups] for one [side] and the value
    [group] of its attribute. *)
Definition add_to_group (side : string) (group : option string)
    (glyph_name : string) (kerning_groups : gmap string (list string))
    : gmap string (list string) :=
  match group with
  | None | Some EmptyString => kerning_groups
  | Some g =>
      let key := "public.kern" +:+ side +:+ "." +:+ g in
      <[key := default [] (kerning_groups !! key) ++ [glyph_name]]>
        kerning_groups
  end.

(** [add_glyph_to_groups(kerning_groups, glyph_data)]; side ['1'] reads
    [rightKerningGroup], side ['2'] reads [leftKerningGroup]. *)
Definition add_glyph_to_groups (kerning_groups : gmap string (list string))
    (glyph_data : GSGlyph) : gmap string (list string) :=
  add_to_group "2" (gs_leftKerningGroup glyph_data) (gs_name glyph_data)
    (add_to_group "1" (gs_rightKerningGroup glyph_data) (gs_name glyph_data)
       kerning_groups).

(** [add_groups_to_ufo(ufo, kerning_groups)]: every key of
    [kerning_groups] is set to its value, the other groups of the font are
    kept. *)
Definition add_groups_to_ufo (ufo : Font)
    (kerning_groups : gmap string (list string)) : Font :=
  set_groups ufo (kerning_groups ∪ groups ufo).

(** [to_ufos], the statements on [kerning_groups]: the groups are
    collected over [font.glyphs] and stored in a font. *)
Definition to_ufos_groups (font_glyphs : list GSGlyph) (ufo : Font) : Font :=
  add_groups_to_ufo ufo (foldl add_glyph_to_groups ∅ font_glyphs).

(** The names that one glyph adds to the group [key]. *)
Definition contribution (key : string) (g : GSGlyph) : list string :=
  (match gs_rightKerningGroup g with
   | Some (String _ _ as r) =>
       if decide (key = "public.kern1." +:+ r) then [gs_name g] else []
   | _ => []
   end)
  ++ (match gs_leftKerningGroup g with
      | Some (String _ _ as l) =>
          if decide (key = "public.kern2." +:+ l) then [gs_name g] else []
      | _ => []
      end).

End Groups.

(** ** Guidelines *)

(** A source guideline and a UFO guideline. *)
Record GSGuideLine : Type := mkGSGuideLine {
  guide_position : Z * Z;
  guide_angle : Z
}.

Record Guideline : Type := mkGuideline {
  guideline_x : Z;
  guideline_y : Z;
  guideline_angle : Z
}.

(** [set_guidelines(ufo_obj, glyphs_data)]: [current] is
    [ufo_obj.guidelines] before the call, the result is its value after
    the call. *)
Definition set_guidelines (current : list Guideline)
    (guidelines : list GSGuideLine) : list Guideline :=
  match guidelines with
  | [] => current
  | _ =>
      (fun guideline =>
         mkGuideline (guide_position guideline).1 (guide_position guideline).2
                     ((360 - guide_angle guideline) `mod` 360))
        <$> guidelines
  end.

(** ** Notions used in the statements *)

Definition is_addPoint (c : pen_call) : bool :=
  match c with addPoint _ _ _ => true | _ => false end.

Section KerningNotions.
Import Kerning.

(** [seen] after a loop of [remove_rule_if_conflict] that keeps every
    member. *)
Definition seen_all (glyph : string) (is_left_class : bool) (rule : kern_rule)
    (members : list string) (seen : seen_table) : seen_table :=
  foldl (fun s member => <[mk_pair is_left_class member glyph := rule]> s)
        seen members.

(** Two fonts that differ at most in their pair table. *)
Definition same_frame (u u' : Font) : Prop :=
  info_styleName u' = info_styleName u ∧ lib u' = lib u
  ∧ groups u' = groups u ∧ glyphs u' = glyphs u.

(** [log0] put in front of the log of a state. *)
Definition with_log (log0 : list log_record) (st : load_state) : load_state :=
  (st.1.1, st.1.2, log0 ++ st.2).

Definition with_log3 (log0 : list log_record)
    (r : Font * seen_table * list log_record)
    : Font * seen_table * list log_record :=
  (r.1.1, r.1.2, log0 ++ r.2).

(** The pairs of a kerning table, in the order of the two loops. *)
Definition flat_pairs (data : list (string * list (string * Z)))
    : list (kern_pair * Z) :=
  data ≫= (fun entry => (fun rv => ((entry.1, rv.1), rv.2)) <$> entry.2).

(** [kern[pair] = val] for every pair of [l], in order. *)
Definition store_pairs (kern : gmap kern_pair Z) (l : list (kern_pair * Z))
    : gmap kern_pair Z :=
  foldl (fun k pv => <[pv.1 := pv.2]> k) kern l.

(** No key of the table is a class key ([@MMK_L_...] on the left,
    [@MMK_R_...] on the right). *)
Definition no_class_key (data : list (string * list (string * Z))) : Prop :=
  Forall (fun entry =>
            Str.re_match_prefix_group "@MMK_L_" entry.1 = None
            ∧ Forall (fun rv =>
                        Str.re_match_prefix_group "@MMK_R_" rv.1 = None)
                     entry.2) data.

End KerningNotions.



(** [build_gdef]: [if not any((bases, ligatures, marks, carets)):
    return None]. *)
Definition build_gdef_none (c : Glyphs.gdef_classes) : bool :=
  bool_decide (Glyphs.bases c = ∅) && bool_decide (Glyphs.ligatures c = ∅)
  && bool_decide (Glyphs.marks c = ∅) && bool_decide (Glyphs.carets c = ∅).

(** The caret positions of a glyph before rounding: the [x] of its
    [caret_] anchors. *)
Definition caret_positions (g : Glyph) : list Q :=
  omap Glyphs.caret_of (glyph_anchors g).

(** [args] after the positional values [values] have been appended. *)
Definition args_with (args : option (list lib_value))
    (values : list lib_value) : option (list lib_value) :=
  match values with
  | [] => args
  | _ => Some (default [] args ++ values)
  end.

(** A segment of a filter string read as a positional argument: not empty
    and without a colon. *)
Definition positional (elem : string) : Prop :=
  elem ≠ "" ∧ Str.contains ":" elem = false.

(** A segment [key:value] read as a keyword argument: its key is neither
    [include] nor [exclude]. *)
Definition keyword_of (elem : string) : option (string * string) :=
  match Str.split_once ":" elem with
  | Some (key, value) =>
      if bool_decide (Str.lower key ∈ ["include"; "exclude"]) then None
      else Some (key, value)
  | None => None
  end.

(** The error logged for an [include] or [exclude] segment that is not the
    last one. *)
Definition not_last_error (elem : string) : option log_record :=
  match Str.split_once ":" elem with
  | Some (key, value) =>
      if bool_decide (Str.lower key ∈ ["include"; "exclude"])
      then Some (ErrorFilterNotLast key elem) else None
  | None => None
  end.

(** [kwargs] after the keyword arguments [kvs] have been stored, in
    order. *)
Definition kwargs_with (cast : string -> lib_value)
    (kwargs : option (gmap string lib_value))
    (kvs : list (string * string)) : option (gmap string lib_value) :=
  match kvs with
  | [] => kwargs
  | _ =>
      Some (foldl (fun m kv => <[kv.1 := cast kv.2]> m)
                  (default ∅ kwargs) kvs)
  end.

(** The keys ['args'] and ['kwargs'] of the result for the segments
    [elems]: the positional segments cast in order, and the keyword
    segments stored in order, a later value replacing an earlier one of
    the same key. *)
Definition args_of (cast : string -> lib_value) (elems : list string)
    : option (list lib_value) :=
  args_with None (cast <$> filter positional elems).

Definition kwargs_of (cast : string -> lib_value) (elems : list string)
    : option (gmap string lib_value) :=
  kwargs_with cast None (omap keyword_of elems).

(** ** Concrete inputs used in the statements below *)

Module Examples.

(** A font whose only group is [public.kern1.A = [a, aa]]. *)
Definition ufo_group_A : Font :=
  mkFont "Regular" ∅ {[ "public.kern1.A" := ["a"; "aa"] ]} ∅ [].

(** The class rule [(@MMK_L_A, x) = 10] and the glyph rule [(aa, x) = 20],
    in the two orders in which the source dictionary can hold them. *)
Definition kerning_class_first : list (string * list (string * Z)) :=
  [("@MMK_L_A", [("x", 10)]); ("aa", [("x", 20)])].

Definition kerning_glyph_first : list (string * list (string * Z)) :=
  [("aa", [("x", 20)]); ("@MMK_L_A", [("x", 10)])].

(** Groups [public.kern1.A = [a, aa, b]] and [public.kern2.X = [x]]. *)
Definition ufo_groups_A_X : Font :=
  mkFont "Regular" ∅
    {[ "public.kern1.A" := ["a"; "aa"; "b"]; "public.kern2.X" := ["x"] ]}
    ∅ [].

(** The class rule [(@MMK_L_A, x) = 10], the glyph rule [(aa, x) = 20] and
    the class rule [(b, @MMK_R_X) = 30]. *)
Definition kerning_three_rules : list (string * list (string * Z)) :=
  [("@MMK_L_A", [("x", 10)]); ("aa", [("x", 20)]);
   ("b", [("@MMK_R_X", 30)])].

Definition node_A : Node := mkNode (0, 0) "line" false.
Definition node_B : Node := mkNode (10, 0) "curve" true.
Definition node_C : Node := mkNode (10, 10) "curve" false.
Definition node_off : Node := mkNode (5, 5) "offcurve" false.

End Examples.

(** * Kerning *)

Section KerningFacts.
Import Kerning Examples.

(** C1, as stated: with the group [public.kern1.A = [a, aa]], the class rule
    [(public.kern1.A, x) = 10] and the glyph rule [(aa, x) = 20],
    [load_kerning] would end with exactly the pairs [(a, x) = 10] and
    [(aa, x) = 20], without the class entry, and would log a conflict for
    the pair [(aa, x)].  The code does not: the statement is false. *)
Lemma load_kerning_class_rule_not_split :
  ¬ ∃ ufo' log,
      load_kerning ufo_group_A kerning_class_first = Some (ufo', log)
      ∧ kerning ufo' = {[ ("a", "x") := 10; ("aa", "x") := 20 ]}
      ∧ kerning ufo' !! ("public.kern1.A", "x") = None
      ∧ ∃ style existing rule,
          WarnConflictingKerning style ("aa", "x") existing rule ∈ log.
Proof.
  intros (ufo' & log & Hrun & _ & Hgone & _).
  vm_compute in Hrun.
  injection Hrun as <- _.
  vm_compute in Hgone. discriminate.
Qed.

(** C1, amended: on that input [load_kerning] leaves the class entry in
    place next to the glyph pair, the final pairs being
    [(public.kern1.A, x) = 10] and [(aa, x) = 20], and logs nothing; this
    holds for both orders of the source dictionary. *)
Theorem load_kerning_class_rule_kept :
  let final :=
    set_kerning ufo_group_A
      {[ ("public.kern1.A", "x") := 10; ("aa", "x") := 20 ]} in
  load_kerning ufo_group_A kerning_class_first = Some (final, [])
  ∧ load_kerning ufo_group_A kerning_glyph_first = Some (final, []).
Proof. split; vm_compute; reflexivity. Qed.

(** C2, at a failing input: the glyph pair [(aa, x) = 20] is loaded from
    the source, the member [b] of the class is dropped because of the rule
    [(b, public.kern2.X) = 30], and the pairs written for the remaining
    members overwrite [(aa, x)] with the class value 10. *)
Theorem load_kerning_overwrites_glyph_pair :
  ∃ ufo' log,
    load_kerning ufo_groups_A_X kerning_three_rules = Some (ufo', log)
    ∧ ("aa", [("x", 20)]) ∈ kerning_three_rules
    ∧ kerning ufo' !! ("aa", "x") = Some 10
    ∧ kerning ufo' =
        {[ ("a", "x") := 10; ("aa", "x") := 10;
           ("b", "public.kern2.X") := 30 ]}
    ∧ log = [WarnConflictingKerning "Regular" ("b", "x")
               ("b", "public.kern2.X", 30) ("public.kern1.A", "x", 10)].
Proof.
  eexists _, _. split; [vm_compute; reflexivity|].
  split; [repeat constructor|].
  split; [vm_compute; reflexivity|].
  split; vm_compute; reflexivity.
Qed.

End KerningFacts.

(** * Paths *)

Section DrawingFacts.
Import Drawing Examples.

Lemma last_snoc_node (init : list Node) (z : Node) :
  last (init ++ [z]) = Some z.
Proof. apply last_snoc. Qed.

Lemma rotate_snoc (init : list Node) (z : Node) :
  rotate (init ++ [z]) = z :: init.
Proof.
  unfold rotate. rewrite last_snoc_node.
  by rewrite removelast_last.
Qed.


(** A failed path makes the whole call fail, whatever is drawn before and
    after it. *)
Lemma draw_paths_app_fail (before after : list Path) (path : Path) :
  (∀ pen, draw_path pen path = None) →
  ∀ pen, draw_paths pen (before ++ path :: after) = None.
Proof.
  intros Hfail. induction before as [|p before IH]; intros pen; simpl.
  - by rewrite Hfail.
  - destruct (draw_path pen p); [apply IH | done].
Qed.



(** C4: an open path whose first node has type [line] is drawn, that node
    being given to the pen as a [move] point; an open path whose first node
    has any other type makes [draw_paths] fail, however many paths are drawn
    before and after it, so that no pen calls are returned. *)
Theorem draw_paths_open_path_start
    (path : Path) (node : Node) (rest : list Node) :
  path_closed path = false →
  path_nodes path = node :: rest →
  (node_type node = "line" →
     ∀ pen, draw_paths pen [path]
       = Some (pen ++ [beginPath;
                       addPoint (node_position node) (Some "move") None]
                   ++ map draw_node rest ++ [endPath]))
  ∧ (node_type node ≠ "line" →
     ∀ pen before after, draw_paths pen (before ++ path :: after) = None).
Proof.
  intros Hopen Hnodes. split.
  - intros Hline pen. simpl. unfold draw_path.
    rewrite Hopen, Hnodes. simpl.
    rewrite bool_decide_eq_true_2 by done.
    by rewrite <- !app_assoc.
  - intros Hnot pen before after. revert pen.
    apply draw_paths_app_fail. intros pen. unfold draw_path.
    rewrite Hopen, Hnodes. simpl.
    by rewrite bool_decide_eq_false_2.
Qed.

Lemma draw_paths_open_path_start_witness :
  draw_paths [] [mkPath [node_A; node_B] false]
    = Some ([] ++ [beginPath; addPoint (0, 0) (Some "move") None]
               ++ map draw_node [node_B] ++ [endPath])
  ∧ draw_paths []
      ([mkPath [node_A; node_B; node_C] true]
         ++ mkPath [node_off; node_A] false
         :: [mkPath [node_A] false]) = None.
Proof.
  split.
  - apply (draw_paths_open_path_start (mkPath [node_A; node_B] false)
             node_A [node_B]); reflexivity.
  - apply (draw_paths_open_path_start (mkPath [node_off; node_A] false)
             node_off [node_A]); [reflexivity | reflexivity | discriminate].
Defined.

End DrawingFacts.

(** * Glyph width *)

Section GlyphWidthFacts.
Import Glyphs.

Variable GLYPHLIB_PREFIX : string.
Variable get_glyph : string -> GlyphInfo.

(** The category that [load_glyph] works with: the override of the source
    glyph, else the value of the glyph data. *)
Lemma load_glyph_category_effective (ufo_glyph : Glyph) (glyph_data : GlyphData) :
  let r := load_glyph_category GLYPHLIB_PREFIX get_glyph ufo_glyph glyph_data in
  r.1.2 = match gd_category glyph_data with
          | Some c => Some c
          | None => gi_category (get_glyph (glyph_name ufo_glyph))
          end
  ∧ r.2 = match gd_subCategory glyph_data with
          | Some c => Some c
          | None => gi_subCategory (get_glyph (glyph_name ufo_glyph))
          end
  ∧ glyph_width r.1.1 = glyph_width ufo_glyph.
Proof.
  unfold load_glyph_category.
  destruct (gd_category glyph_data), (gd_subCategory glyph_data); done.
Qed.

(** C5: with [category] and [subCategory] the values that [load_glyph]
    computes, a layer width greater than 0 of a [Mark]/[Nonspacing] glyph
    gives the target glyph the width 0 and stores the layer width under
    [GLYPHLIB_PREFIX + 'originalWidth']; with any other category or
    subcategory the layer width is the width of the target glyph and the
    lib is left as the category statements made it; without a layer width
    the width of the target glyph is not changed. *)
Theorem load_glyph_width_nonspacing_mark
    (ufo_glyph : Glyph) (layer : Layer) (glyph_data : GlyphData) :
  let category :=
    match gd_category glyph_data with
    | Some c => Some c
    | None => gi_category (get_glyph (glyph_name ufo_glyph))
    end in
  let subCategory :=
    match gd_subCategory glyph_data with
    | Some c => Some c
    | None => gi_subCategory (get_glyph (glyph_name ufo_glyph))
    end in
  let before :=
    (load_glyph_category GLYPHLIB_PREFIX get_glyph ufo_glyph glyph_data).1.1 in
  let after :=
    load_glyph_category_width GLYPHLIB_PREFIX get_glyph ufo_glyph layer
      glyph_data in
  (∀ width, layer_width layer = Some width →
     category = Some "Mark" → subCategory = Some "Nonspacing" → width > 0 →
     glyph_width after = 0
     ∧ glyph_lib after !! (GLYPHLIB_PREFIX +:+ "originalWidth")
       = Some (VInt width))
  ∧ (∀ width, layer_width layer = Some width →
     ¬ (category = Some "Mark" ∧ subCategory = Some "Nonspacing") →
     glyph_width after = width ∧ glyph_lib after = glyph_lib before)
  ∧ (layer_width layer = None →
     glyph_width after = glyph_width ufo_glyph
     ∧ glyph_lib after = glyph_lib before).
Proof.
  intros category subCategory before after.
  pose proof (load_glyph_category_effective ufo_glyph glyph_data)
    as (Hcat & Hsub & Hw).
  subst after before. unfold load_glyph_category_width.
  destruct (load_glyph_category GLYPHLIB_PREFIX get_glyph ufo_glyph glyph_data)
    as [[g cat] sub] eqn:E.
  simpl in Hcat, Hsub, Hw. fold category in Hcat. fold subCategory in Hsub.
  subst cat sub. simpl. unfold load_glyph_width.
  split; [|split].
  - intros width -> -> -> Hpos.
    rewrite !bool_decide_eq_true_2 by done. simpl.
    split; [done|]. apply lookup_insert_eq.
  - intros width -> Hnot.
    destruct (bool_decide (category = Some "Mark")) eqn:E1;
      destruct (bool_decide (subCategory = Some "Nonspacing")) eqn:E2;
      simpl; try done.
    apply bool_decide_eq_true_1 in E1, E2. tauto.
  - intros ->. done.
Qed.

End GlyphWidthFacts.

Lemma load_glyph_width_nonspacing_mark_witness :
  let info (_ : string) := mkGlyphInfo (Some "Mark") (Some "Nonspacing") in
  let target := mkGlyph "gravecomb" 500 ∅ [] in
  let mark :=
    Glyphs.load_glyph_category_width "com.schriftgestaltung.Glyphs." info
      target (mkLayer (Some 120) []) (mkGlyphData None None) in
  let letter :=
    Glyphs.load_glyph_category_width "com.schriftgestaltung.Glyphs." info
      target (mkLayer (Some 120) []) (mkGlyphData (Some "Letter") None) in
  let missing :=
    Glyphs.load_glyph_category_width "com.schriftgestaltung.Glyphs." info
      target (mkLayer None []) (mkGlyphData None None) in
  (glyph_width mark = 0
   ∧ glyph_lib mark !! "com.schriftgestaltung.Glyphs.originalWidth"
     = Some (VInt 120))
  ∧ glyph_width letter = 120
  ∧ glyph_width missing = 500.
Proof.
  intros info target mark letter missing.
  split; [|split].
  - apply (load_glyph_width_nonspacing_mark "com.schriftgestaltung.Glyphs."
             info target (mkLayer (Some 120) []) (mkGlyphData None None));
      [reflexivity | reflexivity | reflexivity | lia].
  - apply (load_glyph_width_nonspacing_mark "com.schriftgestaltung.Glyphs."
             info target (mkLayer (Some 120) [])
             (mkGlyphData (Some "Letter") None));
      [reflexivity | intros [H _]; discriminate H].
  - apply (load_glyph_width_nonspacing_mark "com.schriftgestaltung.Glyphs."
             info target (mkLayer None []) (mkGlyphData None None)).
    reflexivity.
Defined.

(** * GDEF classes *)

Section GdefFacts.
Import Glyphs.

Variable GLYPHLIB_PREFIX : string.
Variable get_glyph : string -> GlyphInfo.
Variable round : Q -> Z.

#[local] Abbreviation gdef_step := (gdef_glyph GLYPHLIB_PREFIX get_glyph round).
#[local] Abbreviation lig := (in_ligatures GLYPHLIB_PREFIX get_glyph).
#[local] Abbreviation mrk := (in_marks GLYPHLIB_PREFIX get_glyph).
#[local] Abbreviation bas := (in_bases GLYPHLIB_PREFIX get_glyph).

Lemma add_carets_classes (acc : gdef_classes) (g : Glyph) :
  bases (add_carets round acc g) = bases acc
  ∧ ligatures (add_carets round acc g) = ligatures acc
  ∧ marks (add_carets round acc g) = marks acc.
Proof.
  unfold add_carets. generalize (glyph_anchors g) as l. intros l. revert acc.
  induction l as [|a l IH]; intros acc; simpl; [done|].
  destruct (IH (match caret_of a with
                | Some x =>
                    mkClasses (bases acc) (ligatures acc) (marks acc)
                      (<[glyph_name g :=
                           default [] (carets acc !! glyph_name g)
                           ++ [round x]]>
                         (carets acc))
                | None => acc
                end)) as (Hb & Hl & Hm).
  rewrite Hb, Hl, Hm. by destruct (caret_of a).
Qed.

(** One iteration adds the name of the glyph to the set selected by the
    first condition that holds, and to no other set. *)
Lemma gdef_glyph_classes (acc : gdef_classes) (g : Glyph) (n : string) :
  (n ∈ ligatures (gdef_step acc g)
     ↔ n ∈ ligatures acc ∨ (n = glyph_name g ∧ lig g))
  ∧ (n ∈ marks (gdef_step acc g)
     ↔ n ∈ marks acc ∨ (n = glyph_name g ∧ mrk g))
  ∧ (n ∈ bases (gdef_step acc g)
     ↔ n ∈ bases acc ∨ (n = glyph_name g ∧ bas g)).
Proof.
  destruct (add_carets_classes acc g) as (Hb & Hl & Hm).
  unfold gdef_glyph, classify, in_ligatures, in_marks, in_bases,
    ligature_cond, mark_cond.
  set (cat := glyph_category GLYPHLIB_PREFIX get_glyph g).
  set (sub := glyph_subCategory GLYPHLIB_PREFIX get_glyph g).
  destruct (bool_decide (sub = Some (VStr "Ligature"))) eqn:E1;
    destruct (has_attaching_anchor g) eqn:E2;
    destruct (bool_decide (cat = Some (VStr "Mark"))) eqn:E3;
    destruct (bool_decide (sub = Some (VStr "Nonspacing"))) eqn:E4;
    destruct (bool_decide (sub = Some (VStr "Spacing Combining"))) eqn:E5;
    simpl; rewrite ?Hb, ?Hl, ?Hm;
    try apply bool_decide_eq_true_1 in E1;
    try apply bool_decide_eq_false_1 in E1;
    try apply bool_decide_eq_true_1 in E3;
    try apply bool_decide_eq_false_1 in E3;
    try apply bool_decide_eq_true_1 in E4;
    try apply bool_decide_eq_false_1 in E4;
    try apply bool_decide_eq_true_1 in E5;
    try apply bool_decide_eq_false_1 in E5;
    rewrite ?elem_of_union, ?elem_of_singleton;
    intuition congruence.
Qed.

Lemma foldl_gdef_glyph_classes (gs : list Glyph) (acc : gdef_classes)
    (n : string) :
  (n ∈ ligatures (foldl gdef_step acc gs)
     ↔ n ∈ ligatures acc ∨ ∃ g, g ∈ gs ∧ n = glyph_name g ∧ lig g)
  ∧ (n ∈ marks (foldl gdef_step acc gs)
     ↔ n ∈ marks acc ∨ ∃ g, g ∈ gs ∧ n = glyph_name g ∧ mrk g)
  ∧ (n ∈ bases (foldl gdef_step acc gs)
     ↔ n ∈ bases acc ∨ ∃ g, g ∈ gs ∧ n = glyph_name g ∧ bas g).
Proof.
  revert acc. induction gs as [|g gs IH]; intros acc; simpl.
  - repeat split; try tauto; intros [?|(? & H & _)]; try done;
      by apply elem_of_nil in H.
  - destruct (IH (gdef_step acc g)) as (Hl & Hm & Hb).
    destruct (gdef_glyph_classes acc g n) as (Hl1 & Hm1 & Hb1).
    rewrite Hl, Hm, Hb, Hl1, Hm1, Hb1.
    repeat split.
    all: try (intros [[?|[-> ?]]|(g' & Hin & ? & ?)];
              [ by left
              | right; exists g; split; [by left | done]
              | right; exists g'; split; [by right | done] ]).
    all: intros [?|(g' & Hin & Hn & Hc)]; [by left; left|];
      apply elem_of_cons in Hin as [->|Hin];
      [ left; right; done | right; exists g'; done ].
Qed.

(** Two glyphs of a font with the same name are the same glyph when the
    names of the font are distinct. *)
Lemma same_name_same_glyph (gs : list Glyph) (g g' : Glyph) :
  NoDup (glyph_name <$> gs) → g ∈ gs → g' ∈ gs →
  glyph_name g = glyph_name g' → g = g'.
Proof.
  induction gs as [|h gs IH]; intros Hnd Hg Hg' Hname.
  - by apply elem_of_nil in Hg.
  - rewrite fmap_cons in Hnd. apply NoDup_cons in Hnd as [Hh Hnd].
    apply elem_of_cons in Hg as [->|Hg];
      apply elem_of_cons in Hg' as [->|Hg'].
    + done.
    + exfalso. apply Hh. rewrite Hname. by apply list_elem_of_fmap_2.
    + exfalso. apply Hh. rewrite <- Hname. by apply list_elem_of_fmap_2.
    + by apply IH.
Qed.

(** In a font with distinct glyph names, the name of a glyph is in a class
    exactly when the glyph takes the branch of that class. *)
Lemma build_gdef_classes_spec (ufo : Font) (g : Glyph) :
  NoDup (glyph_name <$> glyphs ufo) →
  g ∈ glyphs ufo →
  let c := build_gdef_classes GLYPHLIB_PREFIX get_glyph round ufo in
  (glyph_name g ∈ ligatures c ↔ lig g)
  ∧ (glyph_name g ∈ marks c ↔ mrk g)
  ∧ (glyph_name g ∈ bases c ↔ bas g).
Proof.
  intros Hnd Hg c.
  destruct (foldl_gdef_glyph_classes (glyphs ufo) (mkClasses ∅ ∅ ∅ ∅)
              (glyph_name g)) as (Hl & Hm & Hb).
  fold (build_gdef_classes GLYPHLIB_PREFIX get_glyph round ufo) in Hl, Hm, Hb.
  fold c in Hl, Hm, Hb. simpl in Hl, Hm, Hb.
  assert (Hsame : ∀ g', g' ∈ glyphs ufo → glyph_name g = glyph_name g' →
                        g' = g).
  { intros g' Hg' Hn. symmetry. by eapply same_name_same_glyph. }
  rewrite Hl, Hm, Hb.
  split; [|split].
  all: split;
    [ intros [H|(g' & Hin & Hn & Hc)];
      [ by apply not_elem_of_empty in H
      | by rewrite <- (Hsame g' Hin Hn) ]
    | intros Hc; right; by exists g ].
Qed.

(** C6: in a font with distinct glyph names, a glyph whose subcategory is
    [Ligature] and that has an attaching anchor is in the ligatures and in
    no other class, also when its category is [Mark]; a glyph that is not
    such a ligature and whose category is [Mark] with subcategory
    [Nonspacing] or [Spacing Combining] is in the marks only; a glyph that
    is neither and has an attaching anchor is in the bases only; any other
    glyph is in no class.  So every glyph is in at most one class, the
    first of Ligature, Mark, Base whose condition holds. *)
Theorem build_gdef_class_precedence (ufo : Font) (g : Glyph) :
  NoDup (glyph_name <$> glyphs ufo) →
  g ∈ glyphs ufo →
  let c := build_gdef_classes GLYPHLIB_PREFIX get_glyph round ufo in
  let n := glyph_name g in
  let is_ligature := ligature_cond GLYPHLIB_PREFIX get_glyph g in
  let is_mark := mark_cond GLYPHLIB_PREFIX get_glyph g in
  (is_ligature →
     (n ∈ ligatures c) ∧ (n ∉ marks c) ∧ (n ∉ bases c))
  ∧ ((¬ is_ligature) → is_mark →
     (n ∈ marks c) ∧ (n ∉ ligatures c) ∧ (n ∉ bases c))
  ∧ ((¬ is_ligature) → (¬ is_mark) → has_attaching_anchor g = true →
     (n ∈ bases c) ∧ (n ∉ ligatures c) ∧ (n ∉ marks c))
  ∧ ((¬ is_ligature) → (¬ is_mark) → has_attaching_anchor g = false →
     (n ∉ bases c) ∧ (n ∉ ligatures c) ∧ (n ∉ marks c)).
Proof.
  intros Hnd Hg c n is_ligature is_mark.
  destruct (build_gdef_classes_spec ufo g Hnd Hg) as (HL & HM & HB).
  fold c n in HL, HM, HB.
  unfold in_ligatures, in_marks, in_bases in HL, HM, HB.
  fold is_ligature is_mark in HL, HM, HB.
  rewrite HL, HM, HB.
  intuition congruence.
Qed.

End GdefFacts.

Lemma build_gdef_class_precedence_witness :
  let info (n : string) :=
    if bool_decide (n = "f_i")
    then mkGlyphInfo (Some "Mark") (Some "Ligature")
    else mkGlyphInfo (Some "Letter") None in
  let top := mkAnchor (Some "top") (Some 10%Q) in
  let f_i := mkGlyph "f_i" 0 {[ "p.subCategory" := VStr "Ligature" ]} [top] in
  let a := mkGlyph "a" 0 ∅ [top] in
  let ufo := mkFont "Regular" ∅ ∅ ∅ [f_i; a] in
  let c := Glyphs.build_gdef_classes "p." info Glyphs.round_half_even ufo in
  (("f_i" ∈ Glyphs.ligatures c) ∧ ("f_i" ∉ Glyphs.marks c)
   ∧ ("f_i" ∉ Glyphs.bases c))
  ∧ (("a" ∈ Glyphs.bases c) ∧ ("a" ∉ Glyphs.ligatures c)
     ∧ ("a" ∉ Glyphs.marks c)).
Proof.
  intros info top f_i a ufo c.
  assert (Hnd : NoDup (glyph_name <$> glyphs ufo)).
  { refine (bool_decide_unpack _ _). vm_compute. exact I. }
  split.
  - apply (build_gdef_class_precedence "p." info Glyphs.round_half_even ufo
             f_i Hnd).
    + apply list_elem_of_here.
    + split; reflexivity.
  - apply (build_gdef_class_precedence "p." info Glyphs.round_half_even ufo
             a Hnd).
    + apply list_elem_of_further, list_elem_of_here.
    + intros [H _]. vm_compute in H. discriminate H.
    + intros [H _]. vm_compute in H. discriminate H.
    + reflexivity.
Defined.

(** * Filter strings *)

Section StrFacts.
Import Str.

Lemma append_cons (c : ascii) (w s : string) :
  String c w +:+ s = String c (w +:+ s).
Proof. reflexivity. Qed.

Lemma append_empty (s : string) : "" +:+ s = s.
Proof. reflexivity. Qed.

(** A word without separator is a single element. *)
Lemma split_no_sep (sep : ascii) (w : string) :
  contains sep w = false → split sep w = [w].
Proof.
  induction w as [|c w IH]; simpl; [done|].
  destruct (decide (c = sep)); [done|].
  intros H. by rewrite (IH H).
Qed.

Lemma split_append_sep (sep : ascii) (w r : string) :
  contains sep w = false →
  split sep (w +:+ String sep r) = w :: split sep r.
Proof.
  induction w as [|c w IH].
  - intros _. rewrite append_empty. simpl.
    by destruct (decide (sep = sep)).
  - intros H. simpl in H.
    destruct (decide (c = sep)) as [|Hne]; [done|].
    rewrite append_cons. simpl.
    destruct (decide (c = sep)); [done|].
    by rewrite (IH H).
Qed.

(** [sep.join(l).split(sep) == l] for a non-empty list of words without
    separator. *)
Lemma Str_split_join (sep : ascii) (l : list string) :
  l ≠ [] →
  Forall (fun w => contains sep w = false) l →
  split sep (join (String sep "") l) = l.
Proof.
  induction l as [|w l IH]; [done|].
  intros _ Hall. apply Forall_cons in Hall as [Hw Hl].
  destruct l as [|w' l'].
  - simpl. by apply split_no_sep.
  - change (join (String sep "") (w :: w' :: l'))
      with (w +:+ String sep "" +:+ join (String sep "") (w' :: l')).
    change (String sep "" +:+ join (String sep "") (w' :: l'))
      with (String sep (join (String sep "") (w' :: l'))).
    rewrite split_append_sep by done.
    by rewrite IH.
Qed.

End StrFacts.

Section FilterFacts.
Import Filter.

Variable cast : string -> lib_value.

#[local] Abbreviation elem_step := (parse_elem cast).
#[local] Abbreviation elems_loop := (parse_elems cast).

(** The loop only appends to the log, and the result does not depend on
    the records logged before. *)
Lemma parse_elem_log (n idx : nat) (r : filter_struct)
    (log : list log_record) (elem : string) :
  elem_step n (r, log) idx elem
  = ((elem_step n (r, []) idx elem).1,
     log ++ (elem_step n (r, []) idx elem).2).
Proof.
  unfold parse_elem.
  repeat (case_bool_decide || case_match); simpl;
    by rewrite ?app_nil_r.
Qed.

Lemma parse_elems_nil (n idx : nat) (st : filter_struct * list log_record) :
  elems_loop n idx [] st = st.
Proof. reflexivity. Qed.

Lemma parse_elems_cons (n idx : nat) (e : string) (l : list string)
    (st : filter_struct * list log_record) :
  elems_loop n idx (e :: l) st = elems_loop n (S idx) l (elem_step n st idx e).
Proof. reflexivity. Qed.

Lemma parse_elems_log (n : nat) (elems : list string) :
  ∀ (idx : nat) (r : filter_struct) (log : list log_record),
  elems_loop n idx elems (r, log)
  = ((elems_loop n idx elems (r, [])).1,
     log ++ (elems_loop n idx elems (r, [])).2).
Proof.
  induction elems as [|e elems IH]; intros idx r log.
  - rewrite !parse_elems_nil. simpl. by rewrite app_nil_r.
  - rewrite !parse_elems_cons.
    rewrite (parse_elem_log n idx r log e).
    destruct (elem_step n (r, []) idx e) as [r1 l1]. simpl.
    rewrite (IH (S idx) r1 (log ++ l1)), (IH (S idx) r1 l1). simpl.
    by rewrite app_assoc.
Qed.

(** Only the test "is this the last element" reads [n] and [idx]. *)
Lemma parse_elem_same_test (n idx n' idx' : nat)
    (st : filter_struct * list log_record) (elem : string) :
  (Z.of_nat idx ≠ Z.of_nat n - 1 ↔ Z.of_nat idx' ≠ Z.of_nat n' - 1) →
  elem_step n st idx elem = elem_step n' st idx' elem.
Proof.
  intros Hiff. unfold parse_elem.
  by rewrite (bool_decide_ext _ _ Hiff).
Qed.

Lemma parse_elems_shift (elems : list string) :
  ∀ (n idx : nat) (st : filter_struct * list log_record),
  elems_loop (S n) (S idx) elems st = elems_loop n idx elems st.
Proof.
  induction elems as [|e elems IH]; intros n idx st; [done|].
  rewrite !parse_elems_cons, IH. f_equal.
  apply parse_elem_same_test. lia.
Qed.

Lemma parse_elems_app (n : nat) (l1 l2 : list string) :
  ∀ (idx : nat) (st : filter_struct * list log_record),
  elems_loop n idx (l1 ++ l2) st
  = elems_loop n (idx + length l1) l2 (elems_loop n idx l1 st).
Proof.
  induction l1 as [|e l1 IH]; intros idx st.
  - rewrite parse_elems_nil. simpl. by rewrite Nat.add_0_r.
  - rewrite <- app_comm_cons, !parse_elems_cons, IH. simpl.
    by rewrite Nat.add_succ_r.
Qed.

Lemma names_elem_nonempty (elem key value : string) :
  names_elem elem key value → elem ≠ "".
Proof. intros [H _] ->. discriminate H. Qed.

Lemma parse_elem_names_not_last (n idx : nat) (r : filter_struct)
    (log : list log_record) (elem key value : string) :
  names_elem elem key value →
  Z.of_nat idx ≠ Z.of_nat n - 1 →
  elem_step n (r, log) idx elem = (r, log ++ [ErrorFilterNotLast key elem]).
Proof.
  intros Hn Hidx. pose proof (names_elem_nonempty _ _ _ Hn) as Hne.
  destruct Hn as [Hsplit Hkey]. unfold parse_elem.
  rewrite (bool_decide_eq_false_2 _ Hne), Hsplit.
  by rewrite (bool_decide_eq_true_2 _ Hkey), (bool_decide_eq_true_2 _ Hidx).
Qed.

Lemma parse_elem_names_last (n idx : nat) (r : filter_struct)
    (log : list log_record) (elem key value : string) :
  names_elem elem key value →
  Z.of_nat idx = Z.of_nat n - 1 →
  elem_step n (r, log) idx elem
  = (set_names r (Str.lower key) (Str.re_split_space_comma value), log).
Proof.
  intros Hn Hidx. pose proof (names_elem_nonempty _ _ _ Hn) as Hne.
  destruct Hn as [Hsplit Hkey]. unfold parse_elem.
  rewrite (bool_decide_eq_false_2 _ Hne), Hsplit.
  rewrite (bool_decide_eq_true_2 _ Hkey).
  rewrite bool_decide_eq_false_2; [done|]. by intros H.
Qed.

(** Removing an [include] or [exclude] element that is not the last one
    does not change the result; the element is reported in the log. *)
Lemma parse_elems_drop_names (elem key value : string) (post : list string)
    (pre : list string) :
  names_elem elem key value → post ≠ [] →
  ∀ (n idx : nat) (r : filter_struct) (log : list log_record),
  (idx + length pre + length post = n)%nat →
  (elems_loop (S n) idx (pre ++ elem :: post) (r, log)).1
  = (elems_loop n idx (pre ++ post) (r, log)).1
  ∧ ErrorFilterNotLast key elem
    ∈ (elems_loop (S n) idx (pre ++ elem :: post) (r, log)).2.
Proof.
  intros Hn Hpost.
  assert (Hlen : (0 < length post)%nat) by (destruct post; simpl; [done|lia]).
  induction pre as [|e pre IH]; intros n idx r log Hsum.
  - simpl in Hsum. rewrite !app_nil_l, parse_elems_cons.
    rewrite (parse_elem_names_not_last (S n) idx r log elem key value Hn)
      by lia.
    rewrite parse_elems_shift.
    rewrite (parse_elems_log n post idx r (log ++ _)).
    rewrite (parse_elems_log n post idx r log). simpl. split; [done|].
    apply elem_of_app. left. apply elem_of_app. right. apply list_elem_of_here.
  - simpl in Hsum. rewrite <- !app_comm_cons, !parse_elems_cons.
    rewrite (parse_elem_same_test (S n) idx n idx (r, log) e) by lia.
    destruct (elem_step n (r, log) idx e) as [r1 l1].
    apply IH. lia.
Qed.

Lemma parse_elements_named (filter_str name : string) (rest : list string) :
  name ≠ "" →
  parse_elements cast filter_str (name :: rest)
  = (Some (elems_loop (length rest) 0 rest
             (mkFilter name None None None None, [])).1,
     (elems_loop (length rest) 0 rest
        (mkFilter name None None None None, [])).2).
Proof.
  intros Hname. unfold parse_elements.
  rewrite (bool_decide_eq_false_2 _ Hname).
  by destruct (elems_loop _ _ _ _).
Qed.

Lemma split_once_contains (sep : ascii) (w : string) :
  Str.split_once sep w = None ↔ Str.contains sep w = false.
Proof.
  induction w as [|c w IH]; simpl; [done|].
  destruct (decide (c = sep)); [done|].
  rewrite <- IH. by destruct (Str.split_once sep w) as [[k v]|].
Qed.

Lemma args_with_snoc (args : option (list lib_value)) (v : lib_value)
    (values : list lib_value) :
  args_with (Some (default [] args ++ [v])) values
  = args_with args (v :: values).
Proof.
  unfold args_with. destruct values as [|w ws]; simpl; [done|].
  by rewrite <- app_assoc.
Qed.

Lemma kwargs_with_cons (kwargs : option (gmap string lib_value))
    (key value : string) (kvs : list (string * string)) :
  kwargs_with cast (Some (<[key := cast value]> (default ∅ kwargs))) kvs
  = kwargs_with cast kwargs ((key, value) :: kvs).
Proof. unfold kwargs_with. by destruct kvs. Qed.

(** The loop over segments of which none is an [include] or [exclude]
    segment in the last position: positional segments go to [args], keyword
    segments to [kwargs], every [include] or [exclude] segment is
    reported. *)
Lemma parse_elems_fields (n : nat) (elems : list string) :
  ∀ (idx : nat) (r : filter_struct) (log : list log_record),
  (∀ i elem key value,
     elems !! i = Some elem → names_elem elem key value →
     Z.of_nat (idx + i) ≠ Z.of_nat n - 1) →
  parse_elems cast n idx elems (r, log)
  = (mkFilter (f_name r)
       (args_with (f_args r) (cast <$> filter positional elems))
       (kwargs_with cast (f_kwargs r) (omap keyword_of elems))
       (f_include r) (f_exclude r),
     log ++ omap not_last_error elems).
Proof.
  induction elems as [|e elems IH]; intros idx r log Hpos.
  - rewrite parse_elems_nil. destruct r. simpl. by rewrite app_nil_r.
  - rewrite parse_elems_cons.
    assert (Hrest : ∀ i elem key value,
              elems !! i = Some elem → names_elem elem key value →
              Z.of_nat (S idx + i) ≠ Z.of_nat n - 1).
    { intros i elem key value Hi Hn.
      replace (S idx + i)%nat with (idx + S i)%nat by lia.
      by apply (Hpos (S i) elem key value). }
    unfold parse_elem. cbn [omap list_omap].
    unfold keyword_of at 1, not_last_error at 1.
    case_bool_decide as Hempty.
    { subst e. rewrite filter_cons_False by (unfold positional; tauto).
      simpl. by rewrite IH. }
    destruct (Str.split_once ":" e) as [[key value]|] eqn:Hsplit.
    + assert (Hcolon : Str.contains ":" e ≠ false).
      { intros H. apply split_once_contains in H. congruence. }
      rewrite filter_cons_False by (unfold positional; tauto).
      case_bool_decide as Hkey.
      * rewrite bool_decide_eq_true_2.
        2:{ replace idx with (idx + 0)%nat by lia.
            apply (Hpos 0%nat e key value); [done|]. by split. }
        rewrite IH by done. simpl. by rewrite <- app_assoc.
      * rewrite IH by done. unfold set_kwarg. simpl.
        by rewrite kwargs_with_cons.
    + assert (Hcolon : Str.contains ":" e = false)
        by (by apply split_once_contains).
      rewrite filter_cons_True by done.
      rewrite IH by done. unfold add_arg. simpl.
      by rewrite args_with_snoc.
Qed.

(** C7: (a) a filter string whose first segment is empty gives no result
    and one error; (b) an [include] or [exclude] segment followed by at
    least one more segment is reported and ignored, the result being that
    of the string without the segment; (c) as the last segment it is
    accepted and its value, split at runs of spaces and commas, is stored
    under the lower-case key; (d), (e) the two strings of the claim, when
    [cast_to_number_or_bool] reads ["10"] and ["5"] as the numbers 10 and
    5; (f) when the last segment is not an [include] or [exclude] segment,
    the result holds, under [args], the casts of the positional segments
    in order and, under [kwargs], the casts of the values of the keyword
    segments, whatever [include] or [exclude] segments stand between them,
    and the log holds one error for each of these, in order; (g) when the
    last segment is an [include] or [exclude] segment, the same holds of
    the segments before it, and its names are stored. *)
Theorem parse_glyphs_filter_include_exclude :
  (∀ filter_str,
     head (Str.split ";" filter_str) = Some "" →
     parse_glyphs_filter cast filter_str
     = (None, [ErrorFilterName filter_str]))
  ∧ (∀ name pre elem post key value,
       name ≠ "" → names_elem elem key value → post ≠ [] →
       Forall (fun w => Str.contains ";" w = false)
              (name :: pre ++ elem :: post) →
       let with_elem :=
         parse_glyphs_filter cast
           (Str.join ";" (name :: pre ++ elem :: post)) in
       let without :=
         parse_glyphs_filter cast (Str.join ";" (name :: pre ++ post)) in
       is_Some with_elem.1
       ∧ with_elem.1 = without.1
       ∧ ErrorFilterNotLast key elem ∈ with_elem.2)
  ∧ (∀ name pre elem key value,
       name ≠ "" → names_elem elem key value →
       Forall (fun w => Str.contains ";" w = false)
              (name :: pre ++ [elem]) →
       ∃ result log,
         parse_glyphs_filter cast (Str.join ";" (name :: pre ++ [elem]))
         = (Some result, log)
         ∧ (Str.lower key = "include" →
            f_include result = Some (Str.re_split_space_comma value))
         ∧ (Str.lower key = "exclude" →
            f_exclude result = Some (Str.re_split_space_comma value)))
  ∧ (cast "10" = VInt 10 → cast "5" = VInt 5 →
     parse_glyphs_filter cast
       "transformations;OffsetX:10;OffsetY:5;include:a,b c"
     = (Some (mkFilter "transformations" None
                (Some {[ "OffsetX" := VInt 10; "OffsetY" := VInt 5 ]})
                (Some ["a"; "b"; "c"]) None),
        []))
  ∧ (cast "10" = VInt 10 →
     parse_glyphs_filter cast "transformations;include:a;OffsetX:10"
     = (Some (mkFilter "transformations" None
                (Some {[ "OffsetX" := VInt 10 ]}) None None),
        [ErrorFilterNotLast "include" "include:a"]))
  ∧ (∀ name rest,
       name ≠ "" →
       Forall (fun w => Str.contains ";" w = false) (name :: rest) →
       (∀ elem key value,
          last rest = Some elem → ¬ names_elem elem key value) →
       parse_glyphs_filter cast (Str.join ";" (name :: rest))
       = (Some (mkFilter name (args_of cast rest) (kwargs_of cast rest)
                  None None),
          omap not_last_error rest))
  ∧ (∀ name pre elem key value,
       name ≠ "" → names_elem elem key value →
       Forall (fun w => Str.contains ";" w = false)
              (name :: pre ++ [elem]) →
       parse_glyphs_filter cast (Str.join ";" (name :: pre ++ [elem]))
       = (Some (set_names
                  (mkFilter name (args_of cast pre) (kwargs_of cast pre)
                     None None)
                  (Str.lower key) (Str.re_split_space_comma value)),
          omap not_last_error pre)).
Proof.
  split; [|split; [|split; [|split; [|split; [|split]]]]].
  - intros filter_str Hhead. unfold parse_glyphs_filter, parse_elements.
    destruct (Str.split ";" filter_str) as [|name rest]; [done|].
    simpl in Hhead. injection Hhead as ->. done.
  - intros name pre elem post key value Hname Hn Hpost Hall with_elem without.
    subst with_elem without. unfold parse_glyphs_filter.
    assert (Hall' : Forall (fun w => Str.contains ";" w = false)
                           (name :: pre ++ post)).
    { apply Forall_cons in Hall as [H1 H2]. apply Forall_cons. split; [done|].
      apply Forall_app in H2 as [H2 H3]. apply Forall_cons in H3 as [_ H3].
      apply Forall_app. done. }
    rewrite !Str_split_join by done.
    rewrite !parse_elements_named by done. simpl.
    destruct (parse_elems_drop_names elem key value post pre Hn Hpost
                (length (pre ++ post)) 0
                (mkFilter name None None None None) [])
      as [Hres Hlog].
    { rewrite length_app. lia. }
    replace (length (pre ++ elem :: post)) with (S (length (pre ++ post)))
      by (rewrite !length_app; simpl; lia).
    split; [done|]. split; [by rewrite Hres | done].
  - intros name pre elem key value Hname Hn Hall.
    unfold parse_glyphs_filter.
    rewrite Str_split_join by done.
    rewrite parse_elements_named by done.
    eexists _, _. split; [reflexivity|].
    rewrite parse_elems_app. rewrite parse_elems_cons, parse_elems_nil.
    destruct (elems_loop (length (pre ++ [elem])) 0 pre
                (mkFilter name None None None None, [])) as [r1 l1].
    rewrite (parse_elem_names_last _ _ r1 l1 elem key value Hn)
      by (rewrite length_app; simpl; lia).
    simpl. unfold set_names.
    split; intros ->; reflexivity.
  - intros H10 H5. vm_compute. vm_compute in H10, H5.
    rewrite H10, H5. reflexivity.
  - intros H10. vm_compute. vm_compute in H10.
    rewrite H10. reflexivity.
  - intros name rest Hname Hsemi Hlast. unfold parse_glyphs_filter.
    rewrite Str_split_join by done.
    rewrite parse_elements_named by done.
    rewrite parse_elems_fields; [done|].
    intros i elem key value Hi Hn Heq.
    apply (Hlast elem key value); [|done].
    rewrite last_lookup. rewrite <- Hi. f_equal.
    apply lookup_lt_Some in Hi. lia.
  - intros name pre elem key value Hname Hn Hsemi.
    unfold parse_glyphs_filter.
    rewrite Str_split_join by done.
    rewrite parse_elements_named by done.
    rewrite parse_elems_app, parse_elems_cons, parse_elems_nil.
    rewrite parse_elems_fields.
    2:{ intros i e k v Hi _. apply lookup_lt_Some in Hi.
        rewrite length_app. simpl. lia. }
    rewrite (parse_elem_names_last _ _ _ _ elem key value Hn)
      by (rewrite length_app; simpl; lia).
    done.
Qed.

End FilterFacts.

Lemma parse_glyphs_filter_include_exclude_witness :
  (let with_elem :=
     Filter.parse_glyphs_filter Filter.cast_decimal_or_bool
       (Str.join ";" ("f" :: ["1"] ++ "Include:a" :: ["k:v"])) in
   let without :=
     Filter.parse_glyphs_filter Filter.cast_decimal_or_bool
       (Str.join ";" ("f" :: ["1"] ++ ["k:v"])) in
   is_Some with_elem.1
   ∧ with_elem.1 = without.1
   ∧ ErrorFilterNotLast "Include" "Include:a" ∈ with_elem.2)
  ∧ Filter.parse_glyphs_filter Filter.cast_decimal_or_bool
      "transformations;OffsetX:10;OffsetY:5;include:a,b c"
    = (Some (Filter.mkFilter "transformations" None
               (Some {[ "OffsetX" := VInt 10; "OffsetY" := VInt 5 ]})
               (Some ["a"; "b"; "c"]) None),
       [])
  ∧ Filter.parse_glyphs_filter Filter.cast_decimal_or_bool
      "transformations;include:a;OffsetX:10"
    = (Some (Filter.mkFilter "transformations" None
               (Some {[ "OffsetX" := VInt 10 ]}) None None),
       [ErrorFilterNotLast "include" "include:a"])
  ∧ Filter.parse_glyphs_filter Filter.cast_decimal_or_bool
      (Str.join ";" ["f"; "1"; "Include:a"; "k:v"; ""; "true"])
    = (Some (Filter.mkFilter "f" (Some [VInt 1; VBool true])
               (Some {[ "k" := VStr "v" ]}) None None),
       [ErrorFilterNotLast "Include" "Include:a"])
  ∧ Filter.parse_glyphs_filter Filter.cast_decimal_or_bool
      (Str.join ";" ("f" :: ["1"; "exclude:x"; "k:v"] ++ ["Include:a b"]))
    = (Some (Filter.mkFilter "f" (Some [VInt 1])
               (Some {[ "k" := VStr "v" ]}) (Some ["a"; "b"]) None),
       [ErrorFilterNotLast "exclude" "exclude:x"]).
Proof.
  pose proof (parse_glyphs_filter_include_exclude Filter.cast_decimal_or_bool)
    as (_ & Hb & _ & Hd & He & Hf & Hg).
  split; [|split; [|split; [|split]]].
  - apply (Hb "f" ["1"] "Include:a" ["k:v"] "Include" "a").
    + discriminate.
    + split; [reflexivity|]. apply list_elem_of_here.
    + discriminate.
    + repeat constructor.
  - apply Hd; reflexivity.
  - apply He; reflexivity.
  - apply (Hf "f" ["1"; "Include:a"; "k:v"; ""; "true"]).
    + discriminate.
    + repeat constructor.
    + intros elem key value [= <-] [H _]. discriminate H.
  - apply (Hg "f" ["1"; "exclude:x"; "k:v"] "Include:a b" "Include" "a b").
    + discriminate.
    + split; [reflexivity|]. apply list_elem_of_here.
    + repeat constructor.
Defined.

(** * Glyph order *)

Section GlyphOrderFacts.
Import ToUfos.

Variable PUBLIC_PREFIX : string.

#[local] Abbreviation order_key := (glyphOrder_key PUBLIC_PREFIX).

(** The loop appends the names that are not in the set, in their order. *)
Lemma append_missing_filter (set : gset string) (names : list string) :
  ∀ order,
  append_missing set order names = order ++ filter (fun n => n ∉ set) names.
Proof.
  unfold append_missing.
  induction names as [|n names IH]; intros order; simpl.
  - by rewrite app_nil_r.
  - rewrite IH, filter_cons. destruct (decide (n ∉ set)) as [Hn|Hn].
    + rewrite bool_decide_eq_true_2 by done. by rewrite <- app_assoc.
    + rewrite bool_decide_eq_false_2 by done. done.
Qed.

(** C8: when the first master has a font, [override] being the glyph order
    found in its lib (the empty list without one), every font of the result
    holds under [PUBLIC_PREFIX + 'glyphOrder'] the same list: [override]
    followed by the names of the source glyphs that are not in [override],
    in source order.  No font is added or lost.  With [override = [b, a]]
    and the glyphs [a, b, c] the list is [b, a, c]. *)
Theorem to_ufos_glyph_order_same_in_all_fonts
    (glyph_names : list string) (ufos : gmap string Font)
    (first_id : string) (other_ids : list string) (first_ufo : Font)
    (override : list string) :
  ufos !! first_id = Some first_ufo →
  (lib first_ufo !! order_key = Some (VNames override)
   ∨ (lib first_ufo !! order_key = None ∧ override = [])) →
  let final := override ++ filter (fun n => n ∉ override) glyph_names in
  (∃ ufos',
     to_ufos_glyph_order PUBLIC_PREFIX glyph_names ufos
       (first_id :: other_ids) = Some ufos'
     ∧ dom ufos' = dom ufos
     ∧ ∀ master_id ufo,
         ufos' !! master_id = Some ufo →
         lib ufo !! order_key = Some (VNames final))
  ∧ (override = ["b"; "a"] → glyph_names = ["a"; "b"; "c"] →
     final = ["b"; "a"; "c"]).
Proof.
  intros Hfirst Hlib final. split.
  - unfold to_ufos_glyph_order. rewrite Hfirst.
    assert (Hinit :
      match lib first_ufo !! order_key with
      | Some (VNames l) => Some l
      | Some _ => None
      | None => Some []
      end = Some override).
    { destruct Hlib as [-> | [-> ->]]; done. }
    rewrite Hinit. eexists. split; [reflexivity|]. split.
    + apply dom_fmap_L.
    + intros master_id ufo Hlook.
      rewrite lookup_fmap in Hlook.
      destruct (ufos !! master_id) as [u|]; [|done].
      simpl in Hlook. injection Hlook as <-. simpl.
      rewrite lookup_insert_eq. do 2 f_equal.
      rewrite append_missing_filter. unfold final. f_equal.
      apply list_filter_iff. intros n.
      by rewrite elem_of_list_to_set.
  - intros -> ->. reflexivity.
Qed.

End GlyphOrderFacts.

Lemma to_ufos_glyph_order_same_in_all_fonts_witness :
  let regular :=
    mkFont "Regular" {[ "public.glyphOrder" := VNames ["b"; "a"] ]} ∅ ∅ [] in
  let bold := mkFont "Bold" ∅ ∅ ∅ [] in
  let ufos : gmap string Font := {[ "m0" := regular; "m1" := bold ]} in
  ∃ ufos',
    ToUfos.to_ufos_glyph_order "public." ["a"; "b"; "c"] ufos ["m0"; "m1"]
    = Some ufos'
    ∧ dom ufos' = dom ufos
    ∧ ∀ master_id ufo,
        ufos' !! master_id = Some ufo →
        lib ufo !! "public.glyphOrder"
        = Some (VNames (["b"; "a"]
                          ++ filter (fun n => n ∉ ["b"; "a"])
                               ["a"; "b"; "c"])).
Proof.
  intros regular bold ufos.
  apply (to_ufos_glyph_order_same_in_all_fonts "public." ["a"; "b"; "c"]
           ufos "m0" ["m1"] regular ["b"; "a"]).
  - reflexivity.
  - left. reflexivity.
Defined.

(** * Instances *)

Section InstanceFacts.
Import ToUfos.

#[local] Abbreviation family_step :=
  (fun (familyName : option lib_value) (p : custom_parameter) =>
     if bool_decide (p.1 = "familyName") then Some p.2 else familyName).

Lemma foldl_familyName_None (params : list custom_parameter) :
  ∀ acc,
  foldl family_step acc params = None
  ↔ acc = None ∧ Forall (fun p => p.1 ≠ "familyName") params.
Proof.
  induction params as [|p params IH]; intros acc; simpl.
  - split; [intros ->; split; [done | constructor] | by intros [-> _]].
  - rewrite IH. case_bool_decide as Hp.
    + split; [by intros [? _]|].
      intros [_ H]. apply Forall_cons in H as [H _]. done.
    + split.
      * intros [-> H]. split; [done|]. by constructor.
      * intros [-> H]. apply Forall_cons in H as [_ H]. done.
Qed.

(** An instance has no effective family name exactly when it has no
    custom parameter named [familyName]. *)
Lemma instance_familyName_None (i : Instance) :
  instance_familyName i = None
  ↔ Forall (fun p => p.1 ≠ "familyName") (instance_customParameters i).
Proof.
  unfold instance_familyName. rewrite foldl_familyName_None. tauto.
Qed.

Lemma foldl_familyName_Some (params : list custom_parameter)
    (v : lib_value) :
  ∀ acc,
  foldl family_step acc params = Some v
  ↔ (∃ pre post, params = pre ++ ("familyName", v) :: post
                 ∧ Forall (fun p => p.1 ≠ "familyName") post)
    ∨ (acc = Some v ∧ Forall (fun p => p.1 ≠ "familyName") params).
Proof.
  induction params as [|p params IH]; intros acc; simpl.
  - split.
    + intros ->. right. split; [done | constructor].
    + intros [(pre & post & H & _) | [-> _]]; [|done].
      by destruct pre.
  - rewrite IH. destruct p as [k w]. simpl. case_bool_decide as Hp.
    + subst k. split.
      * intros [(pre & post & -> & H) | [Hw H]].
        -- left. exists (("familyName", w) :: pre), post. done.
        -- injection Hw as ->. left. exists [], params. done.
      * intros [(pre & post & Heq & H) | [_ H]].
        -- destruct pre as [|q pre]; simpl in Heq.
           ++ injection Heq as Hw Hpost. subst w post. right. done.
           ++ injection Heq as _ Hpost. left. by exists pre, post.
        -- apply Forall_cons in H as [H _]. done.
    + split.
      * intros [(pre & post & -> & H) | [-> H]].
        -- left. exists ((k, w) :: pre), post. done.
        -- right. split; [done|]. by constructor.
      * intros [(pre & post & Heq & H) | [-> H]].
        -- destruct pre as [|q pre]; simpl in Heq.
           ++ injection Heq as Hk _ _. done.
           ++ injection Heq as _ Hpost. left. by exists pre, post.
        -- right. apply Forall_cons in H as [_ H]. done.
Qed.

Lemma filter_instances_by_family_filter (family_name : option string)
    (instances : list Instance) :
  filter_instances_by_family instances family_name
  = filter (fun i =>
              familyName_matches (instance_familyName i) family_name = true)
           instances.
Proof.
  induction instances as [|i instances IH]; simpl; [done|].
  rewrite filter_cons, IH.
  destruct (familyName_matches (instance_familyName i) family_name);
    [by rewrite decide_True | by rewrite decide_False].
Qed.

(** C9: the instances returned for the family name of the source are
    exactly those without a custom parameter named [familyName]; the
    instances returned for another family name are exactly those whose
    [familyName] parameter (the last one, when there are several) is that
    name; in both cases in their order in the source.  Without a requested
    family name all the instances are returned. *)
Theorem to_ufos_instances_by_family
    (source_family_name : string) (instances : list Instance) :
  to_ufos_instances source_family_name (Some source_family_name) instances
  = filter (fun i => Forall (fun p => p.1 ≠ "familyName")
                            (instance_customParameters i)) instances
  ∧ (∀ name, name ≠ source_family_name →
       to_ufos_instances source_family_name (Some name) instances
       = filter (fun i => instance_familyName i = Some (VStr name))
                instances
       ∧ ∀ i, instance_familyName i = Some (VStr name)
              ↔ ∃ pre post,
                  instance_customParameters i
                  = pre ++ ("familyName", VStr name) :: post
                  ∧ Forall (fun p => p.1 ≠ "familyName") post)
  ∧ to_ufos_instances source_family_name None instances = instances.
Proof.
  split; [|split].
  - unfold to_ufos_instances. rewrite bool_decide_eq_true_2 by done.
    rewrite filter_instances_by_family_filter.
    apply list_filter_iff. intros i.
    rewrite <- instance_familyName_None.
    unfold familyName_matches.
    destruct (instance_familyName i) as [[]|]; split; done.
  - intros name Hname. split.
    + unfold to_ufos_instances. rewrite bool_decide_eq_false_2 by done.
      rewrite filter_instances_by_family_filter.
      apply list_filter_iff. intros i. unfold familyName_matches.
      destruct (instance_familyName i) as [[z|s|b|l]|]; try (split; done).
      rewrite bool_decide_eq_true. split; [by intros -> | by intros [= ->]].
    + intros i. unfold instance_familyName.
      rewrite foldl_familyName_Some. split; [|by left].
      intros [H | [H _]]; [done | discriminate H].
  - reflexivity.
Qed.

End InstanceFacts.

Lemma to_ufos_instances_by_family_witness :
  let plain := mkInstance "Regular" [("weightClass", VInt 400)] in
  let other := mkInstance "Display" [("familyName", VStr "Other")] in
  ToUfos.to_ufos_instances "Mine" (Some "Other") [plain; other]
  = filter (fun i => ToUfos.instance_familyName i = Some (VStr "Other"))
           [plain; other].
Proof.
  intros plain other.
  apply (to_ufos_instances_by_family "Mine" [plain; other]).
  discriminate.
Defined.

(** * Style-map names *)

Section StyleMapFacts.
Import StyleMap.

(** The style-map style name is decided by the two flags alone. *)
Lemma build_stylemap_names_style (family_name style_name : string)
    (is_bold is_italic : bool) (linked_style : option string) :
  (build_stylemap_names family_name style_name is_bold is_italic
     linked_style).2
  = if is_bold then (if is_italic then "bold italic" else "bold")
    else (if is_italic then "italic" else "regular").
Proof. by destruct is_bold, is_italic. Qed.

(** The fields set by [generate_base_fonts], one by one. *)
Lemma generate_base_fonts_style_fields (family_name : string)
    (master : Master) :
  let is_italic := negb (bool_decide (- master_italicAngle master = 0)) in
  let width := master_width master in
  let style_name :=
    build_style_name
      (if bool_decide (width ≠ Some "Regular") then width else Some "")
      (master_weight master) (master_custom master) is_italic in
  let names :=
    build_stylemap_names family_name style_name
      (bool_decide (style_name = "Bold")) is_italic None in
  generate_base_fonts_style family_name master
  = mkStyleInfo style_name (bool_decide (style_name = "Bold"))
      names.1 names.2.
Proof.
  intros is_italic width style_name names.
  unfold generate_base_fonts_style.
  fold width. fold is_italic. fold style_name. fold names.
  by destruct names.
Qed.

(** C10: the flag [is_bold] that [generate_base_fonts] passes on is true
    exactly when the style name of the master is [Bold]; for any other
    style name the style-map style name is [italic] for an italic master
    and [regular] otherwise, so it never contains [bold].  A master of
    weight [Bold] with an italic angle has the style name [Bold Italic],
    the style-map style name [italic] and the style-map family name
    [family_name + " Bold"]; a [Condensed] [Bold] upright master has the
    style-map style name [regular]. *)
Theorem generate_base_fonts_bold_flag (family_name : string) (master : Master) :
  let s := generate_base_fonts_style family_name master in
  (is_bold_flag s = true ↔ styleName s = "Bold")
  ∧ (styleName s ≠ "Bold" →
     styleMapStyleName s
     = if bool_decide (master_italicAngle master = 0)
       then "regular" else "italic")
  ∧ (master_weight master = Some "Bold" →
     master_custom master = None →
     (master_width master = None ∨ master_width master = Some "Regular") →
     master_italicAngle master ≠ 0 →
     styleName s = "Bold Italic"
     ∧ is_bold_flag s = false
     ∧ styleMapStyleName s = "italic"
     ∧ styleMapFamilyName s = family_name +:+ " Bold")
  ∧ (master_weight master = Some "Bold" →
     master_custom master = None →
     master_width master = Some "Condensed" →
     master_italicAngle master = 0 →
     styleName s = "Condensed Bold"
     ∧ is_bold_flag s = false
     ∧ styleMapStyleName s = "regular"
     ∧ styleMapFamilyName s = family_name +:+ " Condensed Bold").
Proof.
  intros s. subst s. rewrite generate_base_fonts_style_fields.
  destruct master as [width weight custom angle].
  cbn [styleName is_bold_flag styleMapStyleName styleMapFamilyName
       master_width master_weight master_custom master_italicAngle].
  split; [|split; [|split]].
  - apply bool_decide_eq_true.
  - intros Hname. rewrite build_stylemap_names_style.
    rewrite (bool_decide_eq_false_2 _ Hname).
    rewrite (bool_decide_ext (- angle = 0) (angle = 0)) by lia.
    by destruct (bool_decide (angle = 0)).
  - intros -> -> Hwidth Hangle.
    rewrite (bool_decide_eq_false_2 (- angle = 0)) by lia.
    destruct Hwidth as [-> | ->]; by vm_compute.
  - intros -> -> -> ->. by vm_compute.
Qed.

Lemma generate_base_fonts_bold_flag_witness :
  let s :=
    generate_base_fonts_style "Noto Sans"
      (mkMaster (Some "Regular") (Some "Bold") None 12) in
  styleName s = "Bold Italic"
  ∧ is_bold_flag s = false
  ∧ styleMapStyleName s = "italic"
  ∧ styleMapFamilyName s = "Noto Sans" +:+ " Bold".
Proof.
  intros s.
  apply (generate_base_fonts_bold_flag "Noto Sans"
           (mkMaster (Some "Regular") (Some "Bold") None 12));
    [reflexivity | reflexivity | by right | discriminate].
Defined.

End StyleMapFacts.

(** * Contours drawn by [draw_paths] *)

Section DrawingMore.
Import Drawing.

(** X1: drawing a list of paths is drawing its first part, then the rest with
    the pen as the first part left it. *)
Theorem draw_paths_app (pen : list pen_call) (first rest : list Path) :
  draw_paths pen (first ++ rest)
  = match draw_paths pen first with
    | Some pen' => draw_paths pen' rest
    | None => None
    end.
Proof.
  revert pen. induction first as [|p first IH]; intros pen; simpl; [done|].
  destruct (draw_path pen p); [apply IH | done].
Qed.

Lemma rotate_length (nodes : list Node) :
  length (rotate nodes) = length nodes.
Proof.
  induction nodes as [|z init _] using rev_ind; [done|].
  rewrite rotate_snoc, length_app. simpl. lia.
Qed.

(** The calls made for one path. *)
Lemma draw_path_block (pen : list pen_call) (path : Path) (out : list pen_call) :
  draw_path pen path = Some out →
  ∃ points,
    out = pen ++ beginPath :: points ++ [endPath]
    ∧ length points = length (path_nodes path)
    ∧ Forall (fun c => is_addPoint c = true) points.
Proof.
  unfold draw_path. destruct (path_nodes path) as [|n rest] eqn:E.
  - intros [= <-]. exists []. rewrite <- app_assoc. done.
  - destruct (path_closed path); simpl.
    + intros [= <-]. exists (map draw_node (rotate (n :: rest))).
      split; [by rewrite <- app_assoc|]. split.
      * by rewrite length_map, rotate_length.
      * apply Forall_forall. intros c Hc. apply list_elem_of_In in Hc.
        apply in_map_iff in Hc as (x & <- & _). done.
    + case_bool_decide; [|done]. intros [= <-].
      exists (addPoint (node_position n) (Some "move") None :: map draw_node rest).
      split; [by rewrite <- !app_assoc|]. split.
      * simpl. by rewrite length_map.
      * constructor; [done|]. apply Forall_forall. intros c Hc.
        apply list_elem_of_In in Hc.
        apply in_map_iff in Hc as (x & <- & _). done.
Qed.

(** X2: a successful call keeps the calls already made and adds one contour
    per path, in order: [beginPath], as many points as the path has nodes,
    [endPath]. *)
Theorem draw_paths_contours (paths : list Path) :
  ∀ (pen out : list pen_call),
  draw_paths pen paths = Some out →
  ∃ contours : list (list pen_call),
    out = pen ++ concat ((fun points => beginPath :: points ++ [endPath])
                           <$> contours)
    ∧ Forall2 (fun points path =>
                 length points = length (path_nodes path)
                 ∧ Forall (fun c => is_addPoint c = true) points)
              contours paths.
Proof.
  induction paths as [|p paths IH]; intros pen out; simpl.
  - intros [= <-]. exists []. simpl. by rewrite app_nil_r.
  - destruct (draw_path pen p) as [pen'|] eqn:E; [|done].
    intros Hrest.
    destruct (draw_path_block pen p pen' E) as (points & -> & Hlen & Hpts).
    destruct (IH _ _ Hrest) as (contours & -> & Hall).
    exists (points :: contours). split.
    + simpl. by rewrite <- (app_assoc pen).
    + by constructor.
Qed.

(** X3: the call succeeds exactly when every open path with nodes starts with
    a node of type [line]. *)
Theorem draw_paths_succeeds_iff (paths : list Path) (pen : list pen_call) :
  is_Some (draw_paths pen paths)
  ↔ Forall (fun path =>
              path_closed path = true
              ∨ path_nodes path = []
              ∨ ∃ node rest, path_nodes path = node :: rest
                             ∧ node_type node = "line") paths.
Proof.
  revert pen. induction paths as [|p paths IH]; intros pen; simpl.
  - split; [constructor | by eexists].
  - rewrite Forall_cons, <- (IH (default [] (draw_path pen p))).
    unfold draw_path. destruct (path_nodes p) as [|n rest].
    + simpl. split; [by intros ?; split; [right; left|] | by intros [_ ?]].
    + destruct (path_closed p); simpl.
      * split; [by intros ?; split; [left|] | by intros [_ ?]].
      * case_bool_decide as Hline; simpl.
        -- split; [|by intros [_ ?]]. intros ?. split; [|done].
           right. right. by exists n, rest.
        -- split; [by intros [? ?]|].
           intros [[?|[?|(n' & rest' & [= <- <-] & ?)]] _]; done.
Qed.

End DrawingMore.

Lemma draw_paths_contours_witness :
  ∃ contours : list (list pen_call),
    [beginPath;
     addPoint (0, 0) (Some "move") None;
     addPoint (10, 0) (Some "curve") (Some true);
     endPath;
     beginPath;
     addPoint (10, 0) (Some "curve") (Some true);
     addPoint (0, 0) (Some "line") (Some false);
     endPath]
    = [] ++ concat ((fun points => beginPath :: points ++ [endPath])
                      <$> contours)
    ∧ Forall2 (fun points path =>
                 length points = length (path_nodes path)
                 ∧ Forall (fun c => is_addPoint c = true) points)
              contours
              [mkPath [Examples.node_A; Examples.node_B] false;
               mkPath [Examples.node_A; Examples.node_B] true].
Proof.
  apply (draw_paths_contours
           [mkPath [Examples.node_A; Examples.node_B] false;
            mkPath [Examples.node_A; Examples.node_B] true] []).
  reflexivity.
Defined.

(** * Class rules without conflict, and what [load_kerning] leaves alone *)

Section KerningMore.
Import Kerning.

Lemma scan_members_no_conflict (styleName : string) (kern : gmap kern_pair Z)
    (glyph : string) (is_left_class : bool) (val : Z) (rule : kern_rule)
    (members : list string) :
  rule.2 = val →
  ∀ (new_glyphs : list string) (seen : seen_table) (log : list log_record),
  (∀ pair existing, seen !! pair = Some existing →
     existing.2 = val ∨ is_Some (kern !! pair)) →
  scan_members styleName kern glyph is_left_class val rule members
    new_glyphs seen log
  = (new_glyphs ++ members,
     seen_all glyph is_left_class rule members seen, log).
Proof.
  intros Hrule. induction members as [|m members IH];
    intros new_glyphs seen log Hseen; simpl.
  - by rewrite app_nil_r.
  - assert (Hnext : ∀ pair existing,
              <[mk_pair is_left_class m glyph := rule]> seen !! pair
              = Some existing →
              existing.2 = val ∨ is_Some (kern !! pair)).
    { intros pair existing. unfold seen_table in *.
      destruct (decide (mk_pair is_left_class m glyph = pair)) as [<-|Hne].
      - rewrite lookup_insert_eq. intros [= <-]. by left.
      - rewrite lookup_insert_ne by done. apply Hseen. }
    destruct (seen !! mk_pair is_left_class m glyph) as [existing|] eqn:E.
    + destruct (Hseen _ _ E) as [Hval | Hkern].
      * rewrite (bool_decide_eq_false_2 (existing.2 ≠ val)) by auto.
        simpl. rewrite IH by done. by rewrite <- app_assoc.
      * rewrite (bool_decide_eq_false_2 (kern !! _ = None)).
        2:{ intros H. rewrite H in Hkern. by destruct Hkern. }
        rewrite andb_false_r. rewrite IH by done. by rewrite <- app_assoc.
    + rewrite IH by done. by rewrite <- app_assoc.
Qed.

(** X4: a class rule is left as it was loaded, and nothing is logged, when no
    rule seen before disagrees with it on a pair that the table does not
    hold itself; the pairs of all its members are then recorded as seen.
    This is the case of the first class rule that is processed. *)
Theorem remove_rule_if_conflict_unchanged (ufo : Font) (seen : seen_table)
    (log : list log_record) (classname glyph : string) (is_left_class : bool)
    (val : Z) (members : list string) :
  let original_pair :=
    if is_left_class then (classname, glyph) else (glyph, classname) in
  kerning ufo !! original_pair = Some val →
  groups ufo !! classname = Some members →
  (∀ pair existing, seen !! pair = Some existing →
     existing.2 = val ∨ is_Some (kerning ufo !! pair)) →
  remove_rule_if_conflict ufo seen log classname glyph is_left_class
  = Some (ufo,
          seen_all glyph is_left_class (original_pair, val) members seen,
          log).
Proof.
  intros original_pair Hval Hgroup Hseen.
  unfold remove_rule_if_conflict. fold original_pair.
  rewrite Hval, Hgroup.
  rewrite scan_members_no_conflict by done. simpl.
  by rewrite bool_decide_eq_false_2 by auto.
Qed.

Lemma remove_rule_if_conflict_unchanged_witness :
  remove_rule_if_conflict
    (set_kerning Examples.ufo_group_A {[ ("public.kern1.A", "x") := 10 ]})
    ∅ [] "public.kern1.A" "x" true
  = Some (set_kerning Examples.ufo_group_A {[ ("public.kern1.A", "x") := 10 ]},
          seen_all "x" true ("public.kern1.A", "x", 10) ["a"; "aa"] ∅, []).
Proof.
  apply (remove_rule_if_conflict_unchanged
           (set_kerning Examples.ufo_group_A
              {[ ("public.kern1.A", "x") := 10 ]})
           ∅ [] "public.kern1.A" "x" true 10 ["a"; "aa"]).
  - reflexivity.
  - reflexivity.
  - intros pair existing H. unfold seen_table in H.
    rewrite lookup_empty in H. discriminate H.
Defined.

Lemma same_frame_refl (u : Font) : same_frame u u.
Proof. done. Qed.

Lemma same_frame_trans (u v w : Font) :
  same_frame u v → same_frame v w → same_frame u w.
Proof. unfold same_frame. intros (?&?&?&?) (?&?&?&?). repeat split; congruence. Qed.

Lemma same_frame_set_kerning (u : Font) (k : gmap kern_pair Z) :
  same_frame u (set_kerning u k).
Proof. done. Qed.

Lemma load_right_frame (left : string) (left_is_class : bool)
    (st : load_state) (entry : string * Z) :
  same_frame st.1.1 (load_right left left_is_class st entry).1.1.
Proof.
  destruct st as [[u cgp] log], entry as [right0 v]. unfold load_right.
  repeat case_match; simpl; done.
Qed.

Lemma foldl_load_right_frame (left : string) (left_is_class : bool)
    (pairs : list (string * Z)) :
  ∀ st, same_frame st.1.1 (foldl (load_right left left_is_class) st pairs).1.1.
Proof.
  induction pairs as [|e pairs IH]; intros st; simpl; [done|].
  eapply same_frame_trans; [apply load_right_frame | apply IH].
Qed.

Lemma load_left_frame (st : load_state)
    (entry : string * list (string * Z)) :
  same_frame st.1.1 (load_left st entry).1.1.
Proof.
  destruct st as [[u cgp] log], entry as [left0 pairs]. unfold load_left.
  repeat case_match; simpl; try done;
    apply (foldl_load_right_frame _ _ pairs (u, cgp, log)).
Qed.

Lemma foldl_load_left_frame (data : list (string * list (string * Z))) :
  ∀ st, same_frame st.1.1 (foldl load_left st data).1.1.
Proof.
  induction data as [|e data IH]; intros st; simpl; [done|].
  eapply same_frame_trans; [apply load_left_frame | apply IH].
Qed.

Lemma remove_rule_if_conflict_frame (ufo ufo' : Font)
    (seen seen' : seen_table) (log log' : list log_record)
    (classname glyph : string) (is_left_class : bool) :
  remove_rule_if_conflict ufo seen log classname glyph is_left_class
  = Some (ufo', seen', log') →
  same_frame ufo ufo'.
Proof.
  unfold remove_rule_if_conflict. repeat case_match; try done.
  all: intros [= <- _ _]; done.
Qed.

Lemma conflict_pass_frame (todo : list class_glyph_pair) :
  ∀ ufo seen log ufo' seen' log',
  conflict_pass ufo seen log todo = Some (ufo', seen', log') →
  same_frame ufo ufo'.
Proof.
  induction todo as [|[[c g] side] todo IH];
    intros ufo seen log ufo' seen' log'; simpl.
  - by intros [= <- _ _].
  - destruct (remove_rule_if_conflict ufo seen log c g side)
      as [[[u1 s1] l1]|] eqn:E; [|done].
    intros H. eapply same_frame_trans.
    + by eapply remove_rule_if_conflict_frame.
    + by eapply IH.
Qed.

(** X5: [load_kerning] changes nothing of the font but its pair table: the
    groups that it reads, the lib, the style name and the glyphs are those
    of the font it was given. *)
Theorem load_kerning_only_kerning (ufo ufo' : Font)
    (kerning_data : list (string * list (string * Z)))
    (log : list log_record) :
  load_kerning ufo kerning_data = Some (ufo', log) →
  info_styleName ufo' = info_styleName ufo ∧ lib ufo' = lib ufo
  ∧ groups ufo' = groups ufo ∧ glyphs ufo' = glyphs ufo.
Proof.
  unfold load_kerning.
  pose proof (foldl_load_left_frame kerning_data (ufo, [], [])) as H1.
  destruct (foldl load_left (ufo, [], []) kerning_data) as [[u1 cgp] l1].
  simpl in H1.
  destruct (conflict_pass u1 ∅ l1 (reverse cgp)) as [[[u2 s2] l2]|] eqn:E;
    [|done].
  intros [= <- _]. apply conflict_pass_frame in E.
  apply (same_frame_trans _ _ _ H1 E).
Qed.

End KerningMore.

Lemma load_kerning_only_kerning_witness :
  let ufo' :=
    set_kerning Examples.ufo_group_A
      {[ ("public.kern1.A", "x") := 10; ("aa", "x") := 20 ]} in
  info_styleName ufo' = info_styleName Examples.ufo_group_A
  ∧ lib ufo' = lib Examples.ufo_group_A
  ∧ groups ufo' = groups Examples.ufo_group_A
  ∧ glyphs ufo' = glyphs Examples.ufo_group_A.
Proof.
  intros ufo'.
  apply (load_kerning_only_kerning Examples.ufo_group_A ufo'
           Examples.kerning_class_first []).
  vm_compute. reflexivity.
Defined.

(** * Kerning entries of classes that the font does not have *)

Section KerningLog.
Import Kerning.

Lemma load_right_log (left : string) (left_is_class : bool)
    (u : Font) (cgp : list class_glyph_pair) (log : list log_record)
    (entry : string * Z) :
  load_right left left_is_class (u, cgp, log) entry
  = with_log log (load_right left left_is_class (u, cgp, []) entry).
Proof.
  destruct entry as [right0 v]. unfold load_right, with_log.
  repeat case_match; simpl; by rewrite ?app_nil_r.
Qed.

Lemma foldl_load_right_log (left : string) (left_is_class : bool)
    (pairs : list (string * Z)) :
  ∀ u cgp log,
  foldl (load_right left left_is_class) (u, cgp, log) pairs
  = with_log log (foldl (load_right left left_is_class) (u, cgp, []) pairs).
Proof.
  induction pairs as [|e pairs IH]; intros u cgp log; cbn [foldl].
  - unfold with_log. simpl. by rewrite app_nil_r.
  - rewrite (load_right_log _ _ u cgp log e).
    destruct (load_right left left_is_class (u, cgp, []) e) as [[u1 c1] l1].
    unfold with_log at 1. simpl.
    rewrite (IH u1 c1 (log ++ l1)), (IH u1 c1 l1).
    unfold with_log. simpl. by rewrite app_assoc.
Qed.

Lemma load_left_log (u : Font) (cgp : list class_glyph_pair)
    (log : list log_record) (entry : string * list (string * Z)) :
  load_left (u, cgp, log) entry = with_log log (load_left (u, cgp, []) entry).
Proof.
  destruct entry as [left0 pairs]. unfold load_left.
  repeat case_match; try apply foldl_load_right_log.
  unfold with_log. simpl. done.
Qed.

Lemma foldl_load_left_log (data : list (string * list (string * Z))) :
  ∀ u cgp log,
  foldl load_left (u, cgp, log) data
  = with_log log (foldl load_left (u, cgp, []) data).
Proof.
  induction data as [|e data IH]; intros u cgp log; cbn [foldl].
  - unfold with_log. simpl. by rewrite app_nil_r.
  - rewrite (load_left_log u cgp log e).
    destruct (load_left (u, cgp, []) e) as [[u1 c1] l1].
    unfold with_log at 1. simpl.
    rewrite (IH u1 c1 (log ++ l1)), (IH u1 c1 l1).
    unfold with_log. simpl. by rewrite app_assoc.
Qed.

Lemma scan_members_log (styleName : string) (kern : gmap kern_pair Z)
    (glyph : string) (is_left_class : bool) (val : Z) (rule : kern_rule)
    (members : list string) :
  ∀ new_glyphs seen log,
  scan_members styleName kern glyph is_left_class val rule members
    new_glyphs seen log
  = (let r := scan_members styleName kern glyph is_left_class val rule
                members new_glyphs seen [] in
     (r.1.1, r.1.2, log ++ r.2)).
Proof.
  induction members as [|m members IH]; intros new_glyphs seen log; simpl.
  - by rewrite app_nil_r.
  - repeat case_match; try apply IH.
    rewrite (IH _ _ (log ++ _)), (IH _ _ [_]). simpl.
    by rewrite <- app_assoc.
Qed.

Lemma remove_rule_if_conflict_log (ufo : Font) (seen : seen_table)
    (log : list log_record) (classname glyph : string) (is_left_class : bool) :
  remove_rule_if_conflict ufo seen log classname glyph is_left_class
  = with_log3 log
      <$> remove_rule_if_conflict ufo seen [] classname glyph is_left_class.
Proof.
  unfold remove_rule_if_conflict.
  destruct (kerning ufo !! _) as [val|]; [|done].
  destruct (groups ufo !! classname) as [old_glyphs|]; [|done].
  rewrite scan_members_log.
  destruct (scan_members _ _ _ _ _ _ _ _ _ []) as [[ng s'] l']. simpl.
  by case_bool_decide.
Qed.

Lemma conflict_pass_log (todo : list class_glyph_pair) :
  ∀ ufo seen log,
  conflict_pass ufo seen log todo
  = with_log3 log <$> conflict_pass ufo seen [] todo.
Proof.
  induction todo as [|[[c g] side] todo IH]; intros ufo seen log; simpl.
  - unfold with_log3. simpl. by rewrite app_nil_r.
  - rewrite (remove_rule_if_conflict_log ufo seen log).
    destruct (remove_rule_if_conflict ufo seen [] c g side)
      as [[[u1 s1] l1]|]; [|done].
    simpl. rewrite (IH u1 s1 (log ++ l1)), (IH u1 s1 l1).
    destruct (conflict_pass u1 s1 [] todo) as [[[u2 s2] l2]|]; [|done].
    unfold with_log3. simpl. by rewrite app_assoc.
Qed.

(** The font that [load_kerning] returns does not depend on what the
    loading loops logged. *)
Lemma load_kerning_from_state (ufo : Font)
    (data : list (string * list (string * Z))) :
  load_kerning ufo data
  = (let st := foldl load_left (ufo, [], []) data in
     (fun r : Font * seen_table * list log_record => (r.1.1, st.2 ++ r.2))
       <$> conflict_pass st.1.1 ∅ [] (reverse st.1.2)).
Proof.
  unfold load_kerning.
  destruct (foldl load_left (ufo, [], []) data) as [[u1 cgp] l1]. simpl.
  rewrite conflict_pass_log.
  by destruct (conflict_pass u1 ∅ [] (reverse cgp)) as [[[u2 s2] l2]|].
Qed.

Lemma foldl_load_right_same (left : string) (left_is_class : bool)
    (pairs : list (string * Z)) (st st' : load_state) :
  st.1 = st'.1 →
  (foldl (load_right left left_is_class) st pairs).1
  = (foldl (load_right left left_is_class) st' pairs).1.
Proof.
  destruct st as [[u c] l], st' as [[u' c'] l']. simpl. intros [= <- <-].
  by rewrite (foldl_load_right_log _ _ pairs u c l),
             (foldl_load_right_log _ _ pairs u c l').
Qed.

Lemma foldl_load_left_same (data : list (string * list (string * Z)))
    (st st' : load_state) :
  st.1 = st'.1 →
  (foldl load_left st data).1 = (foldl load_left st' data).1.
Proof.
  destruct st as [[u c] l], st' as [[u' c'] l']. simpl. intros [= <- <-].
  by rewrite (foldl_load_left_log data u c l),
             (foldl_load_left_log data u c l').
Qed.

Lemma load_kerning_font (ufo : Font)
    (data : list (string * list (string * Z))) :
  fst <$> load_kerning ufo data
  = (let st := foldl load_left (ufo, [], []) data in
     (fun r : Font * seen_table * list log_record => r.1.1)
       <$> conflict_pass st.1.1 ∅ [] (reverse st.1.2)).
Proof.
  rewrite load_kerning_from_state. simpl.
  by destruct (conflict_pass _ _ _ _) as [[[u2 s2] l2]|].
Qed.

Lemma load_kerning_font_same (ufo : Font)
    (data data' : list (string * list (string * Z))) :
  (foldl load_left (ufo, [], []) data).1
  = (foldl load_left (ufo, [], []) data').1 →
  fst <$> load_kerning ufo data = fst <$> load_kerning ufo data'.
Proof.
  intros H. rewrite !load_kerning_font. simpl. by rewrite H.
Qed.

(** X6: an entry whose left key names a class that the font does not have is
    skipped with all its pairs: the font is the one obtained from the table
    without the entry, and a warning names the missing group. *)
Theorem load_kerning_missing_left_class (ufo : Font)
    (before after : list (string * list (string * Z)))
    (left0 g : string) (pairs : list (string * Z)) :
  Str.re_match_prefix_group "@MMK_L_" left0 = Some g →
  groups ufo !! ("public.kern1." +:+ g) = None →
  fst <$> load_kerning ufo (before ++ (left0, pairs) :: after)
  = fst <$> load_kerning ufo (before ++ after)
  ∧ ∀ ufo' log,
      load_kerning ufo (before ++ (left0, pairs) :: after) = Some (ufo', log) →
      WarnNonExistentClass ("public.kern1." +:+ g) ∈ log.
Proof.
  intros Hmatch Hgroup.
  pose proof (foldl_load_left_frame before (ufo, [], [])) as Hframe.
  destruct (foldl load_left (ufo, [], []) before) as [[u1 c1] l1] eqn:E1.
  simpl in Hframe. destruct Hframe as (_ & _ & Hg & _).
  assert (Hskip : load_left (u1, c1, l1) (left0, pairs)
          = (u1, c1, l1 ++ [WarnNonExistentClass ("public.kern1." +:+ g)])).
  { unfold load_left. rewrite Hmatch, Hg, Hgroup. done. }
  split.
  - apply load_kerning_font_same. rewrite !foldl_app, E1. cbn [foldl].
    rewrite Hskip. by apply foldl_load_left_same.
  - intros ufo' log. rewrite load_kerning_from_state.
    rewrite foldl_app, E1. cbn [foldl]. rewrite Hskip.
    rewrite (foldl_load_left_log after u1 c1 (l1 ++ _)).
    destruct (foldl load_left (u1, c1, []) after) as [[u2 c2] l2].
    unfold with_log. simpl.
    destruct (conflict_pass u2 ∅ [] (reverse c2)) as [[[u3 s3] l3]|];
      simpl; [|done].
    intros [= _ <-].
    rewrite !elem_of_app, list_elem_of_singleton. tauto.
Qed.

(** A pair whose right key names a class that the font does not have is
    skipped: the font is the one obtained without the pair. *)
Lemma load_kerning_skip_right_font (ufo : Font)
    (before after : list (string * list (string * Z)))
    (left0 right0 g : string) (val : Z)
    (pairs_before pairs_after : list (string * Z)) :
  Str.re_match_prefix_group "@MMK_R_" right0 = Some g →
  groups ufo !! ("public.kern2." +:+ g) = None →
  fst <$> load_kerning ufo
            (before
               ++ (left0, pairs_before ++ (right0, val) :: pairs_after)
               :: after)
  = fst <$> load_kerning ufo
              (before ++ (left0, pairs_before ++ pairs_after) :: after).
Proof.
  intros Hmatch Hgroup.
  apply load_kerning_font_same. rewrite !foldl_app. cbn [foldl].
  pose proof (foldl_load_left_frame before (ufo, [], [])) as Hframe.
  destruct (foldl load_left (ufo, [], []) before) as [[u1 c1] l1].
  simpl in Hframe. destruct Hframe as (_ & _ & Hg & _).
  apply foldl_load_left_same.
  assert (Hinner : ∀ left left_is_class,
    (foldl (load_right left left_is_class) (u1, c1, l1)
       (pairs_before ++ (right0, val) :: pairs_after)).1
    = (foldl (load_right left left_is_class) (u1, c1, l1)
         (pairs_before ++ pairs_after)).1).
  { intros left left_is_class. rewrite !foldl_app. cbn [foldl].
    pose proof (foldl_load_right_frame left left_is_class pairs_before
                  (u1, c1, l1)) as Hf.
    destruct (foldl (load_right left left_is_class) (u1, c1, l1)
                pairs_before) as [[u2 c2] l2].
    simpl in Hf. destruct Hf as (_ & _ & Hg2 & _).
    assert (Hskip : load_right left left_is_class (u2, c2, l2) (right0, val)
            = (u2, c2,
               l2 ++ [WarnNonExistentClass ("public.kern2." +:+ g)])).
    { unfold load_right. rewrite Hmatch, Hg2, Hg, Hgroup. done. }
    rewrite Hskip. by apply foldl_load_right_same. }
  unfold load_left. repeat case_match; try apply Hinner; done.
Qed.

End KerningLog.

Lemma load_kerning_missing_left_class_witness :
  fst <$> Kerning.load_kerning Examples.ufo_group_A
            ([] ++ ("@MMK_L_B", [("x", 10)]) :: [("aa", [("x", 20)])])
  = fst <$> Kerning.load_kerning Examples.ufo_group_A
              ([] ++ [("aa", [("x", 20)])])
  ∧ ∀ ufo' log,
      Kerning.load_kerning Examples.ufo_group_A
        ([] ++ ("@MMK_L_B", [("x", 10)]) :: [("aa", [("x", 20)])])
      = Some (ufo', log) →
      WarnNonExistentClass ("public.kern1." +:+ "B") ∈ log.
Proof.
  apply (load_kerning_missing_left_class Examples.ufo_group_A []
           [("aa", [("x", 20)])] "@MMK_L_B" "B" [("x", 10)]).
  - reflexivity.
  - reflexivity.
Defined.

(** * Kerning tables without class keys *)

Section KerningPlain.
Import Kerning.

Lemma set_kerning_twice (u : Font) (k k' : gmap kern_pair Z) :
  set_kerning (set_kerning u k) k' = set_kerning u k'.
Proof. done. Qed.

Lemma store_pairs_app (kern : gmap kern_pair Z) (l1 l2 : list (kern_pair * Z)) :
  store_pairs kern (l1 ++ l2) = store_pairs (store_pairs kern l1) l2.
Proof. apply foldl_app. Qed.

Lemma foldl_load_right_plain (left : string) (pairs : list (string * Z)) :
  Forall (fun rv => Str.re_match_prefix_group "@MMK_R_" rv.1 = None) pairs →
  ∀ u k cgp log,
  foldl (load_right left false) (set_kerning u k, cgp, log) pairs
  = (set_kerning u
       (store_pairs k ((fun rv => ((left, rv.1), rv.2)) <$> pairs)),
     cgp, log).
Proof.
  induction 1 as [|[right0 v] pairs Hr _ IH]; intros u k cgp log; [done|].
  cbn [foldl]. unfold load_right at 2. simpl in Hr. rewrite Hr. simpl.
  rewrite set_kerning_twice. by rewrite IH.
Qed.

Lemma foldl_load_left_plain (data : list (string * list (string * Z))) :
  no_class_key data →
  ∀ u k cgp log,
  foldl load_left (set_kerning u k, cgp, log) data
  = (set_kerning u (store_pairs k (flat_pairs data)), cgp, log).
Proof.
  induction 1 as [|[left0 pairs] data [Hl Hr] _ IH]; intros u k cgp log;
    [done|].
  cbn [foldl]. unfold load_left at 2. simpl in Hl, Hr. rewrite Hl.
  rewrite foldl_load_right_plain by done. rewrite IH.
  unfold flat_pairs. rewrite bind_cons. by rewrite store_pairs_app.
Qed.

Lemma store_pairs_lookup (l : list (kern_pair * Z)) (kern : gmap kern_pair Z) :
  NoDup l.*1 →
  ∀ p,
  store_pairs kern l !! p
  = match list_to_map (M:=gmap kern_pair Z) l !! p with
    | Some v => Some v
    | None => kern !! p
    end.
Proof.
  induction l as [|[q w] l IH] using rev_ind; intros Hnd p; [done|].
  rewrite fmap_app in Hnd. apply NoDup_app in Hnd as (Hnd & Hq & _).
  assert (Hfresh : q ∉ l.*1).
  { intros Hin. apply (Hq q Hin). apply list_elem_of_here. }
  rewrite store_pairs_app, list_to_map_snoc by done.
  unfold store_pairs at 1. cbn [foldl fst snd].
  destruct (decide (q = p)) as [->|Hne].
  - by rewrite !lookup_insert_eq.
  - rewrite !lookup_insert_ne by done. by apply IH.
Qed.

(** X8: a kerning table without class keys is stored as it is: the call
    succeeds, logs nothing, every pair of the table is in the pair table of
    the font with its value, and the other pairs of the font keep
    theirs. *)
Theorem load_kerning_glyph_pairs (ufo : Font)
    (data : list (string * list (string * Z))) :
  no_class_key data →
  NoDup (flat_pairs data).*1 →
  ∃ ufo',
    load_kerning ufo data = Some (ufo', [])
    ∧ (∀ left right val,
         ((left, right), val) ∈ flat_pairs data →
         kerning ufo' !! (left, right) = Some val)
    ∧ (∀ pair, pair ∉ (flat_pairs data).*1 →
         kerning ufo' !! pair = kerning ufo !! pair).
Proof.
  intros Hplain Hnd. unfold load_kerning.
  assert (Hload : foldl load_left (ufo, [], []) data
                  = (set_kerning ufo
                       (store_pairs (kerning ufo) (flat_pairs data)), [], [])).
  { pose proof (foldl_load_left_plain data Hplain ufo (kerning ufo) [] [])
      as H.
    destruct ufo. exact H. }
  rewrite Hload. simpl.
  eexists. split; [reflexivity|]. simpl. split.
  - intros left right val Hin. rewrite store_pairs_lookup by done.
    by rewrite (elem_of_list_to_map_1 _ _ _ Hnd Hin).
  - intros pair Hout. rewrite store_pairs_lookup by done.
    by rewrite (not_elem_of_list_to_map_1 _ _ Hout).
Qed.

End KerningPlain.

Lemma load_kerning_glyph_pairs_witness :
  let data := [("aa", [("x", 20); ("y", 5)]); ("b", [("x", -3)])] in
  ∃ ufo',
    Kerning.load_kerning Examples.ufo_group_A data = Some (ufo', [])
    ∧ (∀ left right val,
         ((left, right), val) ∈ flat_pairs data →
         kerning ufo' !! (left, right) = Some val)
    ∧ (∀ pair, pair ∉ (flat_pairs data).*1 →
         kerning ufo' !! pair = kerning Examples.ufo_group_A !! pair).
Proof.
  intros data.
  apply (load_kerning_glyph_pairs Examples.ufo_group_A data).
  - repeat constructor.
  - refine (bool_decide_unpack _ _). vm_compute. exact I.
Defined.

(** * Kerning pairs of classes that the font does not have *)

Section KerningSkippedPair.
Import Kerning.

Lemma foldl_load_right_plain_font (left : string) (pairs : list (string * Z))
    (u : Font) (cgp : list class_glyph_pair) (log : list log_record) :
  Forall (fun rv => Str.re_match_prefix_group "@MMK_R_" rv.1 = None) pairs →
  foldl (load_right left false) (u, cgp, log) pairs
  = (set_kerning u
       (store_pairs (kerning u) ((fun rv => ((left, rv.1), rv.2)) <$> pairs)),
     cgp, log).
Proof.
  intros Hplain.
  pose proof (foldl_load_right_plain left pairs Hplain u (kerning u) cgp log)
    as H.
  destruct u. exact H.
Qed.

Lemma foldl_load_left_plain_font (data : list (string * list (string * Z)))
    (u : Font) (cgp : list class_glyph_pair) (log : list log_record) :
  no_class_key data →
  foldl load_left (u, cgp, log) data
  = (set_kerning u (store_pairs (kerning u) (flat_pairs data)), cgp, log).
Proof.
  intros Hplain.
  pose proof (foldl_load_left_plain data Hplain u (kerning u) cgp log) as H.
  destruct u. exact H.
Qed.

Lemma flat_pairs_app (d1 d2 : list (string * list (string * Z))) :
  flat_pairs (d1 ++ d2) = flat_pairs d1 ++ flat_pairs d2.
Proof. unfold flat_pairs. apply bind_app. Qed.

Lemma flat_pairs_cons (left : string) (pairs : list (string * Z))
    (data : list (string * list (string * Z))) :
  flat_pairs ((left, pairs) :: data)
  = ((fun rv => ((left, rv.1), rv.2)) <$> pairs) ++ flat_pairs data.
Proof. done. Qed.

(** The state of the loading loops after a table whose only class key is
    the right key of one pair, the class of which the font does not
    have. *)
Lemma foldl_load_left_skipped_pair (ufo : Font)
    (before after : list (string * list (string * Z)))
    (left0 right0 g : string) (val : Z)
    (pairs_before pairs_after : list (string * Z)) :
  Str.re_match_prefix_group "@MMK_R_" right0 = Some g →
  groups ufo !! ("public.kern2." +:+ g) = None →
  no_class_key (before ++ (left0, pairs_before ++ pairs_after) :: after) →
  foldl load_left (ufo, [], [])
    (before ++ (left0, pairs_before ++ (right0, val) :: pairs_after) :: after)
  = (set_kerning ufo
       (store_pairs (kerning ufo)
          (flat_pairs
             (before ++ (left0, pairs_before ++ pairs_after) :: after))),
     [], [WarnNonExistentClass ("public.kern2." +:+ g)]).
Proof.
  intros Hmatch Hgroup Hplain.
  apply Forall_app in Hplain as [Hbefore Hentry].
  apply Forall_cons in Hentry as [[Hleft Hpairs] Hafter].
  simpl in Hleft, Hpairs. apply Forall_app in Hpairs as [Hpb Hpa].
  rewrite foldl_app, foldl_load_left_plain_font by done.
  cbn [foldl]. unfold load_left at 2. rewrite Hleft.
  rewrite foldl_app, foldl_load_right_plain_font by done.
  cbn [foldl]. unfold load_right at 2. rewrite Hmatch. cbv zeta.
  change (groups (set_kerning (set_kerning ufo _) _)) with (groups ufo).
  rewrite Hgroup.
  rewrite foldl_load_right_plain_font by done.
  rewrite foldl_load_left_plain_font by done.
  simpl. f_equal. f_equal. unfold set_kerning. simpl. f_equal.
  rewrite flat_pairs_app, flat_pairs_cons, fmap_app.
  by rewrite !store_pairs_app.
Qed.

(** X7: a pair whose right key names a class that the font does not have
    is skipped: the font is the one obtained without the pair.  When no
    other key of the table is a class key, the call succeeds and logs the
    one warning that names the missing group; the other pairs of the left
    key, and of every other left key, are in the pair table with their
    values, and the skipped pair is not stored. *)
Theorem load_kerning_missing_right_class (ufo : Font)
    (before after : list (string * list (string * Z)))
    (left0 right0 g : string) (val : Z)
    (pairs_before pairs_after : list (string * Z)) :
  Str.re_match_prefix_group "@MMK_R_" right0 = Some g →
  groups ufo !! ("public.kern2." +:+ g) = None →
  let with_pair :=
    before ++ (left0, pairs_before ++ (right0, val) :: pairs_after) :: after in
  let without :=
    before ++ (left0, pairs_before ++ pairs_after) :: after in
  fst <$> load_kerning ufo with_pair = fst <$> load_kerning ufo without
  ∧ (no_class_key without →
     NoDup (flat_pairs without).*1 →
     ∃ ufo',
       load_kerning ufo with_pair
       = Some (ufo', [WarnNonExistentClass ("public.kern2." +:+ g)])
       ∧ (∀ right v,
            (right, v) ∈ pairs_before ++ pairs_after →
            kerning ufo' !! (left0, right) = Some v)
       ∧ (∀ left right v,
            ((left, right), v) ∈ flat_pairs without →
            kerning ufo' !! (left, right) = Some v)
       ∧ kerning ufo' !! (left0, right0) = kerning ufo !! (left0, right0)).
Proof.
  intros Hmatch Hgroup with_pair without. split.
  { by apply load_kerning_skip_right_font with (g := g). }
  intros Hplain Hnd. unfold load_kerning. subst with_pair.
  rewrite (foldl_load_left_skipped_pair ufo before after left0 right0 g val
             pairs_before pairs_after Hmatch Hgroup Hplain).
  fold without. simpl. eexists. split; [reflexivity|]. simpl.
  assert (Hstored : ∀ left right v,
            ((left, right), v) ∈ flat_pairs without →
            store_pairs (kerning ufo) (flat_pairs without) !! (left, right)
            = Some v).
  { intros left right v Hin. rewrite store_pairs_lookup by done.
    by rewrite (elem_of_list_to_map_1 _ _ _ Hnd Hin). }
  split; [|split; [exact Hstored|]].
  - intros right v Hin. apply Hstored. subst without.
    rewrite flat_pairs_app, flat_pairs_cons.
    apply elem_of_app. right. apply elem_of_app. left.
    by apply (list_elem_of_fmap_2 (fun rv => ((left0, rv.1), rv.2))
                _ (right, v)).
  - rewrite store_pairs_lookup by done.
    rewrite not_elem_of_list_to_map_1; [done|].
    intros Hin. apply list_elem_of_fmap in Hin as ([[l r] v] & Heq & Hin).
    simpl in Heq. injection Heq as <- <-.
    unfold flat_pairs in Hin. apply list_elem_of_bind in Hin
      as ([l' ps] & Hin & Hentry).
    apply list_elem_of_fmap in Hin as ([r' v'] & Heq & Hin).
    simpl in Heq. injection Heq as _ <- _.
    unfold no_class_key in Hplain.
    rewrite Forall_forall in Hplain. destruct (Hplain _ Hentry) as [_ Hps].
    simpl in Hps. rewrite Forall_forall in Hps.
    specialize (Hps _ Hin). simpl in Hps. congruence.
Qed.

End KerningSkippedPair.

Lemma load_kerning_missing_right_class_witness :
  let with_pair :=
    [] ++ ("aa", [("x", 20)] ++ ("@MMK_R_X", 30) :: [("y", 5)])
       :: [("b", [("x", -3)])] in
  let without :=
    [] ++ ("aa", [("x", 20)] ++ [("y", 5)]) :: [("b", [("x", -3)])] in
  fst <$> Kerning.load_kerning Examples.ufo_group_A with_pair
  = fst <$> Kerning.load_kerning Examples.ufo_group_A without
  ∧ ∃ ufo',
      Kerning.load_kerning Examples.ufo_group_A with_pair
      = Some (ufo', [WarnNonExistentClass ("public.kern2." +:+ "X")])
      ∧ (∀ right v,
           (right, v) ∈ [("x", 20)] ++ [("y", 5)] →
           kerning ufo' !! ("aa", right) = Some v)
      ∧ (∀ left right v,
           ((left, right), v) ∈ flat_pairs without →
           kerning ufo' !! (left, right) = Some v)
      ∧ kerning ufo' !! ("aa", "@MMK_R_X")
        = kerning Examples.ufo_group_A !! ("aa", "@MMK_R_X").
Proof.
  intros with_pair without.
  destruct (load_kerning_missing_right_class Examples.ufo_group_A []
              [("b", [("x", -3)])] "aa" "@MMK_R_X" "X" 30
              [("x", 20)] [("y", 5)] eq_refl eq_refl) as [Hfont Hplain].
  split; [exact Hfont|]. apply Hplain.
  - repeat constructor.
  - refine (bool_decide_unpack _ _). vm_compute. exact I.
Defined.

(** * Glyph order, instances and linked styles *)

Section GlyphOrderMore.
Import ToUfos.
Variable PUBLIC_PREFIX : string.

Lemma filter_none {A} (P : A → Prop) `{∀ x, Decision (P x)} (l : list A) :
  Forall (fun x => ¬ P x) l → filter P l = [].
Proof.
  induction 1 as [|x l Hx _ IH]; [done|].
  by rewrite filter_cons_False.
Qed.

Lemma append_missing_elem (override glyph_names : list string) (n : string) :
  n ∈ append_missing (list_to_set override) override glyph_names
  ↔ n ∈ override ∨ n ∈ glyph_names.
Proof.
  rewrite append_missing_filter.
  rewrite elem_of_app, list_elem_of_filter, elem_of_list_to_set.
  destruct (decide (n ∈ override)); tauto.
Qed.

(** X9: the glyph order lists the names of the override and of the source
    glyphs, and nothing else; it has no duplicate when neither the override
    nor the source has one. *)
Theorem append_missing_complete (override glyph_names : list string) :
  let final :=
    append_missing (list_to_set override) override glyph_names in
  (∀ n, n ∈ final ↔ n ∈ override ∨ n ∈ glyph_names)
  ∧ (NoDup override → NoDup glyph_names → NoDup final).
Proof.
  intros final. subst final. rewrite append_missing_filter. split.
  - intros n. rewrite <- append_missing_filter. apply append_missing_elem.
  - intros Ho Hn. apply NoDup_app. split; [done|]. split.
    + intros n Hin. rewrite list_elem_of_filter, elem_of_list_to_set. tauto.
    + by apply NoDup_filter.
Qed.

(** X10: storing the glyph order a second time changes nothing: the order found
    in the first font already lists every glyph, and every font already
    holds it. *)
Theorem to_ufos_glyph_order_idempotent (glyph_names : list string)
    (ufos ufos' : gmap string Font) (master_id_order : list string) :
  to_ufos_glyph_order PUBLIC_PREFIX glyph_names ufos master_id_order
  = Some ufos' →
  to_ufos_glyph_order PUBLIC_PREFIX glyph_names ufos' master_id_order
  = Some ufos'.
Proof.
  unfold to_ufos_glyph_order.
  destruct master_id_order as [|first_id others]; [done|].
  destruct (ufos !! first_id) as [first_ufo|] eqn:Hfirst; [|done].
  set (initial := match lib first_ufo !! glyphOrder_key PUBLIC_PREFIX with
                  | Some (VNames l) => Some l
                  | Some _ => None
                  | None => Some []
                  end).
  destruct initial as [override|]; [|done].
  intros [= <-]. rewrite lookup_fmap, Hfirst. simpl.
  rewrite lookup_insert_eq. f_equal.
  set (final := append_missing (list_to_set override) override glyph_names).
  assert (Hstable : append_missing (list_to_set final) final glyph_names
                    = final).
  { rewrite append_missing_filter.
    rewrite filter_none; [by rewrite app_nil_r|].
    apply Forall_forall. intros n Hn. rewrite elem_of_list_to_set.
    intros Hout. apply Hout.
    apply append_missing_elem. by right. }
  rewrite Hstable. apply map_eq. intros m. rewrite !lookup_fmap.
  destruct (ufos !! m) as [u|]; [|done]. simpl. f_equal.
  unfold set_lib. simpl. by rewrite insert_insert_eq.
Qed.

End GlyphOrderMore.

Section InstancesMore.
Import ToUfos.

(** X11: filtering the instances that were returned for a family returns them
    all again, and the instances returned are instances of the source, in
    their order. *)
Theorem to_ufos_instances_idempotent (source_family_name : string)
    (family_name : option string) (instances : list Instance) :
  let kept := to_ufos_instances source_family_name family_name instances in
  to_ufos_instances source_family_name family_name kept = kept
  ∧ sublist kept instances.
Proof.
  intros kept. subst kept. unfold to_ufos_instances.
  destruct family_name as [name|]; [|done].
  rewrite !filter_instances_by_family_filter. split.
  - rewrite list_filter_filter. apply list_filter_iff. tauto.
  - apply sublist_filter.
Qed.

End InstancesMore.

Section StyleMore.
Import StyleMap.






End StyleMore.

Lemma append_missing_complete_witness :
  NoDup (ToUfos.append_missing (list_to_set ["b"; "a"]) ["b"; "a"]
           ["a"; "b"; "c"]).
Proof.
  apply (append_missing_complete ["b"; "a"] ["a"; "b"; "c"]).
  - refine (bool_decide_unpack _ _). vm_compute. exact I.
  - refine (bool_decide_unpack _ _). vm_compute. exact I.
Defined.

Lemma to_ufos_glyph_order_idempotent_witness :
  let regular :=
    mkFont "Regular" {[ "public.glyphOrder" := VNames ["b"; "a"] ]} ∅ ∅ [] in
  let bold := mkFont "Bold" ∅ ∅ ∅ [] in
  let order := VNames ["b"; "a"; "c"] in
  let ufos' : gmap string Font :=
    {[ "m0" := set_lib regular {[ "public.glyphOrder" := order ]};
       "m1" := set_lib bold {[ "public.glyphOrder" := order ]} ]} in
  ToUfos.to_ufos_glyph_order "public." ["a"; "b"; "c"] ufos' ["m0"; "m1"]
  = Some ufos'.
Proof.
  intros regular bold order ufos'.
  apply (to_ufos_glyph_order_idempotent "public." ["a"; "b"; "c"]
           {[ "m0" := regular; "m1" := bold ]} ufos' ["m0"; "m1"]).
  vm_compute. reflexivity.
Defined.


(** * Filter names and positional arguments; caret positions *)

Section FilterMore.
Import Filter.
Variable cast : string -> lib_value.

Lemma split_nonempty (sep : ascii) (s : string) : Str.split sep s ≠ [].
Proof.
  induction s as [|c s IH]; simpl; [done|].
  destruct (decide (c = sep)); [done|].
  by destruct (Str.split sep s).
Qed.

Lemma parse_elem_name (n idx : nat) (st : filter_struct * list log_record)
    (elem : string) :
  f_name (parse_elem cast n st idx elem).1 = f_name st.1.
Proof.
  destruct st as [r log]. unfold parse_elem, set_names.
  repeat (case_bool_decide || case_match); simpl; done.
Qed.

Lemma parse_elems_name (n : nat) (elems : list string) :
  ∀ idx st, f_name (parse_elems cast n idx elems st).1 = f_name st.1.
Proof.
  induction elems as [|e elems IH]; intros idx st; [done|].
  rewrite parse_elems_cons, IH. apply parse_elem_name.
Qed.

(** X13: the parser returns a filter exactly when the text before the first
    semicolon is not empty, and that text is then the name of the filter;
    otherwise it returns nothing and logs one error. *)
Theorem parse_glyphs_filter_name (filter_str : string) :
  ∃ name rest,
    Str.split ";" filter_str = name :: rest
    ∧ (name = "" →
       parse_glyphs_filter cast filter_str
       = (None, [ErrorFilterName filter_str]))
    ∧ (name ≠ "" →
       ∃ result log,
         parse_glyphs_filter cast filter_str = (Some result, log)
         ∧ f_name result = name).
Proof.
  unfold parse_glyphs_filter.
  destruct (Str.split ";" filter_str) as [|name rest] eqn:E.
  { by apply split_nonempty in E. }
  exists name, rest. split; [done|]. split.
  - intros ->. done.
  - intros Hname. rewrite parse_elements_named by done.
    eexists _, _. split; [reflexivity|].
    by rewrite parse_elems_name.
Qed.

Lemma split_once_none (sep : ascii) (w : string) :
  Str.contains sep w = false → Str.split_once sep w = None.
Proof.
  induction w as [|c w IH]; simpl; [done|].
  destruct (decide (c = sep)); [done|]. intros H. by rewrite IH.
Qed.

Lemma parse_elems_positional (n : nat) (elems : list string) :
  Forall (fun w => Str.contains ":" w = false) elems →
  ∀ idx name args kwargs incl excl log,
  parse_elems cast n idx elems (mkFilter name args kwargs incl excl, log)
  = (mkFilter name
       (args_with args (cast <$> filter (fun w => w ≠ "") elems))
       kwargs incl excl, log).
Proof.
  induction 1 as [|e elems He _ IH]; intros idx name args kwargs incl excl log.
  - done.
  - rewrite parse_elems_cons. unfold parse_elem.
    rewrite filter_cons. case_bool_decide as Hempty.
    + rewrite decide_False by tauto. apply IH.
    + rewrite decide_True by done.
      rewrite (split_once_none _ _ He). unfold add_arg. simpl.
      rewrite IH. unfold args_with.
      destruct (filter (fun w => w ≠ "") elems) as [|v vs]; simpl.
      * done.
      * by rewrite <- app_assoc.
Qed.

(** X14: a filter string whose segments have no colon gives its non-empty
    segments as positional arguments, cast one by one and in their order;
    no other key is set and nothing is logged. *)
Theorem parse_glyphs_filter_positional (name : string) (segments : list string) :
  name ≠ "" →
  Forall (fun w => Str.contains ";" w = false) (name :: segments) →
  Forall (fun w => Str.contains ":" w = false) segments →
  parse_glyphs_filter cast (Str.join ";" (name :: segments))
  = (Some (mkFilter name
             (match filter (fun w => w ≠ "") segments with
              | [] => None
              | values => Some (cast <$> values)
              end)
             None None None),
     []).
Proof.
  intros Hname Hsemi Hcolon. unfold parse_glyphs_filter.
  rewrite Str_split_join by done.
  rewrite parse_elements_named by done.
  rewrite parse_elems_positional by done. simpl. do 3 f_equal.
  by destruct (filter (fun w => w ≠ "") segments).
Qed.

End FilterMore.

Section CaretsMore.
Import Glyphs.
Variable GLYPHLIB_PREFIX : string.
Variable get_glyph : string -> GlyphInfo.
Variable round : Q -> Z.

#[local] Abbreviation gdef_step :=
  (gdef_glyph GLYPHLIB_PREFIX get_glyph round).

Lemma add_carets_lookup (g : Glyph) (n : string) :
  ∀ acc,
  carets (add_carets round acc g) !! n
  = if decide (n = glyph_name g) then
      match round <$> caret_positions g with
      | [] => carets acc !! n
      | xs => Some (default [] (carets acc !! n) ++ xs)
      end
    else carets acc !! n.
Proof.
  unfold add_carets, caret_positions.
  induction (glyph_anchors g) as [|a anchors IH]; intros acc.
  - simpl. by case_decide.
  - cbn [foldl omap list_omap]. rewrite IH. clear IH.
    destruct (caret_of a) as [x|]; [|done]. rewrite fmap_cons. simpl.
    case_decide as Hn; [|by rewrite lookup_insert_ne].
    subst n. rewrite lookup_insert_eq. simpl.
    destruct (round <$> omap caret_of anchors) as [|y ys]; [done|].
    by rewrite <- app_assoc.
Qed.

Lemma classify_carets (acc : gdef_classes) (g : Glyph)
    (c s : option lib_value) :
  carets (classify acc g c s) = carets acc.
Proof. unfold classify. by repeat case_match. Qed.

Lemma foldl_gdef_carets_other (gs : list Glyph) (n : string) :
  n ∉ glyph_name <$> gs →
  ∀ acc, carets (foldl gdef_step acc gs) !! n = carets acc !! n.
Proof.
  induction gs as [|g gs IH]; intros Hn acc; [done|].
  rewrite fmap_cons in Hn. apply not_elem_of_cons in Hn as [Hne Hn].
  cbn [foldl]. rewrite IH by done.
  unfold gdef_glyph. rewrite classify_carets, add_carets_lookup.
  by rewrite decide_False.
Qed.

(** X15: in a font with distinct glyph names, the caret positions collected
    for a glyph are the rounded [x] of its anchors whose name starts with
    [caret_], in the order of the anchors; a glyph without such an anchor
    has no entry. *)
Theorem build_gdef_carets (ufo : Font) (g : Glyph) :
  NoDup (glyph_name <$> glyphs ufo) →
  g ∈ glyphs ufo →
  carets (build_gdef_classes GLYPHLIB_PREFIX get_glyph round ufo)
    !! glyph_name g
  = match round <$> caret_positions g with
    | [] => None
    | xs => Some xs
    end.
Proof.
  unfold build_gdef_classes.
  assert (Hgen : ∀ gs acc,
    NoDup (glyph_name <$> gs) → g ∈ gs →
    carets acc !! glyph_name g = None →
    carets (foldl gdef_step acc gs) !! glyph_name g
    = match round <$> caret_positions g with [] => None | xs => Some xs end).
  { induction gs as [|h gs IH]; intros acc Hnd Hin Hacc.
    - by apply elem_of_nil in Hin.
    - rewrite fmap_cons in Hnd. apply NoDup_cons in Hnd as [Hh Hnd].
      cbn [foldl]. apply elem_of_cons in Hin as [->|Hin].
      + rewrite foldl_gdef_carets_other by done.
        unfold gdef_glyph. rewrite classify_carets, add_carets_lookup.
        rewrite decide_True by done. rewrite Hacc.
        by destruct (round <$> caret_positions h).
      + apply IH; [done | done |].
        unfold gdef_glyph. rewrite classify_carets, add_carets_lookup.
        rewrite decide_False; [done|].
        intros Heq. apply Hh. rewrite <- Heq.
        by apply list_elem_of_fmap_2. }
  intros Hnd Hin. by apply Hgen.
Qed.

(** X16: a font in which no glyph has an anchor and no glyph is a mark has no
    GDEF table: the three classes and the carets are empty, and
    [build_gdef] returns [None]. *)
Theorem build_gdef_nothing_to_classify (ufo : Font) :
  Forall (fun g => glyph_anchors g = []
                   ∧ ¬ mark_cond GLYPHLIB_PREFIX get_glyph g) (glyphs ufo) →
  build_gdef_classes GLYPHLIB_PREFIX get_glyph round ufo = mkClasses ∅ ∅ ∅ ∅
  ∧ build_gdef_none (build_gdef_classes GLYPHLIB_PREFIX get_glyph round ufo)
    = true.
Proof.
  intros Hall.
  assert (Heq : build_gdef_classes GLYPHLIB_PREFIX get_glyph round ufo
                = mkClasses ∅ ∅ ∅ ∅).
  { unfold build_gdef_classes. generalize (mkClasses ∅ ∅ ∅ ∅) as acc.
    induction Hall as [|g gs [Hanchors Hmark] _ IH]; intros acc; [done|].
    cbn [foldl]. rewrite <- (IH acc) at 2. f_equal.
    unfold gdef_glyph, add_carets, classify, has_attaching_anchor.
    rewrite Hanchors. simpl. rewrite andb_false_r.
    unfold mark_cond in Hmark.
    destruct (bool_decide (glyph_category GLYPHLIB_PREFIX get_glyph g
                           = Some (VStr "Mark"))) eqn:E1; [|done].
    apply bool_decide_eq_true_1 in E1.
    destruct (bool_decide (glyph_subCategory GLYPHLIB_PREFIX get_glyph g
                           = Some (VStr "Nonspacing"))) eqn:E2.
    { apply bool_decide_eq_true_1 in E2. tauto. }
    destruct (bool_decide (glyph_subCategory GLYPHLIB_PREFIX get_glyph g
                           = Some (VStr "Spacing Combining"))) eqn:E3.
    { apply bool_decide_eq_true_1 in E3. tauto. }
    done. }
  split; [done|]. rewrite Heq. done.
Qed.

End CaretsMore.

Lemma parse_glyphs_filter_name_witness :
  ∃ result log,
    Filter.parse_glyphs_filter Filter.cast_decimal_or_bool "RemoveOverlap;1"
    = (Some result, log)
    ∧ Filter.f_name result = "RemoveOverlap".
Proof.
  destruct (parse_glyphs_filter_name Filter.cast_decimal_or_bool
              "RemoveOverlap;1") as (name & rest & Hsplit & _ & Hok).
  vm_compute in Hsplit. injection Hsplit as <- <-.
  apply Hok. discriminate.
Defined.

Lemma parse_glyphs_filter_positional_witness :
  Filter.parse_glyphs_filter Filter.cast_decimal_or_bool
    (Str.join ";" ["RemoveOverlap"; "10"; ""; "true"])
  = (Some (Filter.mkFilter "RemoveOverlap"
             (Some (Filter.cast_decimal_or_bool <$> ["10"; "true"]))
             None None None),
     []).
Proof.
  apply (parse_glyphs_filter_positional Filter.cast_decimal_or_bool
           "RemoveOverlap" ["10"; ""; "true"]).
  - discriminate.
  - repeat constructor.
  - repeat constructor.
Defined.

Lemma build_gdef_carets_witness :
  let info (n : string) := mkGlyphInfo (Some "Letter") None in
  let f_i :=
    mkGlyph "f_i" 0 ∅
      [mkAnchor (Some "caret_1") (Some (501 # 2)%Q);
       mkAnchor (Some "top") (Some 10%Q);
       mkAnchor (Some "caret_2") (Some (4997 # 10)%Q);
       mkAnchor (Some "caret_3") (Some (1503 # 2)%Q)] in
  let a := mkGlyph "a" 0 ∅ [mkAnchor (Some "top") (Some 10%Q)] in
  let ufo := mkFont "Regular" ∅ ∅ ∅ [f_i; a] in
  let c := Glyphs.build_gdef_classes "p." info Glyphs.round_half_even ufo in
  Glyphs.carets c !! "f_i" = Some [250; 500; 752]
  ∧ Glyphs.carets c !! "a" = None.
Proof.
  intros info f_i a ufo c.
  assert (Hnd : NoDup (glyph_name <$> glyphs ufo)).
  { refine (bool_decide_unpack _ _). vm_compute. exact I. }
  split.
  - apply (build_gdef_carets "p." info Glyphs.round_half_even ufo f_i Hnd).
    apply list_elem_of_here.
  - apply (build_gdef_carets "p." info Glyphs.round_half_even ufo a Hnd).
    apply list_elem_of_further, list_elem_of_here.
Defined.

Lemma build_gdef_nothing_to_classify_witness :
  let info (n : string) := mkGlyphInfo (Some "Letter") None in
  let ufo :=
    mkFont "Regular" ∅ ∅ ∅ [mkGlyph "a" 500 ∅ []; mkGlyph "b" 520 ∅ []] in
  let c := Glyphs.build_gdef_classes "p." info Glyphs.round_half_even ufo in
  c = Glyphs.mkClasses ∅ ∅ ∅ ∅ ∧ build_gdef_none c = true.
Proof.
  intros info ufo c.
  apply (build_gdef_nothing_to_classify "p." info Glyphs.round_half_even ufo).
  repeat constructor; intros [H _]; vm_compute in H; discriminate H.
Defined.

(** * Kerning groups and guidelines *)

Section GroupsFacts.
Import Groups.

Lemma kern_key (side g : string) :
  "public.kern" +:+ side +:+ "." +:+ g = ("public.kern" +:+ side +:+ ".") +:+ g.
Proof.
  assert (Happ : ∀ a b c : string, a +:+ b +:+ c = (a +:+ b) +:+ c).
  { intros a b c. induction a as [|x a IH]; [done|].
    rewrite !append_cons. by rewrite IH. }
  by rewrite !Happ.
Qed.

Lemma append_inj (p a b : string) : p +:+ a = p +:+ b → a = b.
Proof.
  induction p as [|c p IH]; [done|].
  rewrite !append_cons. intros [= H]. by apply IH.
Qed.

Lemma kern1_kern2 (a b : string) :
  "public.kern1." +:+ a ≠ "public.kern2." +:+ b.
Proof. intros H. vm_compute in H. discriminate H. Qed.

Lemma add_to_group_lookup (side : string) (group : option string)
    (name key : string) (kg : gmap string (list string)) :
  add_to_group side group name kg !! key
  = match group with
    | Some (String _ _ as g) =>
        if decide (key = ("public.kern" +:+ side +:+ ".") +:+ g)
        then Some (default [] (kg !! key) ++ [name])
        else kg !! key
    | _ => kg !! key
    end.
Proof.
  unfold add_to_group. destruct group as [[|c g]|]; try done.
  rewrite kern_key. case_decide as Hk.
  - subst key. by rewrite lookup_insert_eq.
  - by rewrite lookup_insert_ne.
Qed.

Lemma add_glyph_to_groups_lookup (kg : gmap string (list string))
    (g : GSGlyph) (key : string) :
  add_glyph_to_groups kg g !! key
  = match contribution key g with
    | [] => kg !! key
    | names => Some (default [] (kg !! key) ++ names)
    end.
Proof.
  unfold add_glyph_to_groups, contribution.
  rewrite !add_to_group_lookup.
  change ("public.kern" +:+ "1" +:+ ".") with "public.kern1.".
  change ("public.kern" +:+ "2" +:+ ".") with "public.kern2.".
  destruct (gs_rightKerningGroup g) as [[|c r]|],
           (gs_leftKerningGroup g) as [[|d l]|]; simpl; try done;
    repeat case_decide; simpl; try done.
  subst key. symmetry in H0. by apply kern1_kern2 in H0.
Qed.

Lemma foldl_add_glyph_to_groups_lookup (gs : list GSGlyph) (key : string) :
  ∀ kg,
  foldl add_glyph_to_groups kg gs !! key
  = match gs ≫= contribution key with
    | [] => kg !! key
    | names => Some (default [] (kg !! key) ++ names)
    end.
Proof.
  induction gs as [|g gs IH]; intros kg; [done|].
  cbn [foldl]. rewrite IH, add_glyph_to_groups_lookup, bind_cons.
  destruct (contribution key g) as [|n ns]; [done|].
  simpl. destruct (gs ≫= contribution key); simpl.
  - by rewrite app_nil_r.
  - by rewrite <- app_assoc.
Qed.

Lemma contribution_kern1 (group : string) (gs : list GSGlyph) :
  group ≠ "" →
  gs ≫= contribution ("public.kern1." +:+ group)
  = gs_name <$> filter (fun g => gs_rightKerningGroup g = Some group) gs.
Proof.
  intros Hne. induction gs as [|g gs IH]; [done|].
  rewrite bind_cons, filter_cons, IH. unfold contribution.
  assert (Hleft :
    match gs_leftKerningGroup g with
    | Some (String _ _ as l) =>
        if decide ("public.kern1." +:+ group = "public.kern2." +:+ l)
        then [gs_name g] else []
    | _ => []
    end = []).
  { destruct (gs_leftKerningGroup g) as [[|d l]|]; [done| |done].
    destruct (decide _) as [H|_]; [|done]. by apply kern1_kern2 in H. }
  rewrite Hleft, app_nil_r. clear Hleft.
  destruct (gs_rightKerningGroup g) as [[|c r]|] eqn:E.
  - destruct (decide (Some "" = Some group)) as [[= <-]|_]; done.
  - destruct (decide ("public.kern1." +:+ group = "public.kern1." +:+ String c r))
      as [H|H].
    + apply append_inj in H. subst group.
      destruct (decide (Some (String c r) = Some (String c r))); done.
    + destruct (decide (Some (String c r) = Some group)) as [[= <-]|_]; done.
  - destruct (decide (None = Some group)); done.
Qed.

Lemma contribution_kern2 (group : string) (gs : list GSGlyph) :
  group ≠ "" →
  gs ≫= contribution ("public.kern2." +:+ group)
  = gs_name <$> filter (fun g => gs_leftKerningGroup g = Some group) gs.
Proof.
  intros Hne. induction gs as [|g gs IH]; [done|].
  rewrite bind_cons, filter_cons, IH. unfold contribution.
  assert (Hright :
    match gs_rightKerningGroup g with
    | Some (String _ _ as r) =>
        if decide ("public.kern2." +:+ group = "public.kern1." +:+ r)
        then [gs_name g] else []
    | _ => []
    end = []).
  { destruct (gs_rightKerningGroup g) as [[|d r]|]; [done| |done].
    destruct (decide _) as [H|_]; [|done].
    symmetry in H. by apply kern1_kern2 in H. }
  rewrite Hright, app_nil_l. clear Hright.
  destruct (gs_leftKerningGroup g) as [[|c l]|] eqn:E.
  - destruct (decide (Some "" = Some group)) as [[= <-]|_]; done.
  - destruct (decide ("public.kern2." +:+ group = "public.kern2." +:+ String c l))
      as [H|H].
    + apply append_inj in H. subst group.
      destruct (decide (Some (String c l) = Some (String c l))); done.
    + destruct (decide (Some (String c l) = Some group)) as [[= <-]|_]; done.
  - destruct (decide (None = Some group)); done.
Qed.

Lemma to_ufos_groups_lookup (font_glyphs : list GSGlyph) (ufo : Font)
    (key : string) :
  groups (to_ufos_groups font_glyphs ufo) !! key
  = match font_glyphs ≫= contribution key with
    | [] => groups ufo !! key
    | names => Some names
    end.
Proof.
  unfold to_ufos_groups, add_groups_to_ufo. simpl.
  rewrite lookup_union, foldl_add_glyph_to_groups_lookup, lookup_empty.
  destruct (font_glyphs ≫= contribution key); simpl;
    by destruct (groups ufo !! key).
Qed.

(** X17: the group [public.kern1.G] that [to_ufos] stores in a font holds
    the names of the source glyphs whose right kerning group is [G], in
    source order, and the group [public.kern2.G] those of the glyphs whose
    left kerning group is [G]; when no glyph has the group, the group of
    that name in the font, if any, is left as it was. *)
Theorem to_ufos_groups_members (font_glyphs : list GSGlyph) (ufo : Font)
    (group : string) :
  group ≠ "" →
  groups (to_ufos_groups font_glyphs ufo) !! ("public.kern1." +:+ group)
  = match filter (fun g => gs_rightKerningGroup g = Some group) font_glyphs with
    | [] => groups ufo !! ("public.kern1." +:+ group)
    | members => Some (gs_name <$> members)
    end
  ∧ groups (to_ufos_groups font_glyphs ufo) !! ("public.kern2." +:+ group)
    = match filter (fun g => gs_leftKerningGroup g = Some group) font_glyphs with
      | [] => groups ufo !! ("public.kern2." +:+ group)
      | members => Some (gs_name <$> members)
      end.
Proof.
  intros Hne. rewrite !to_ufos_groups_lookup.
  rewrite contribution_kern1, contribution_kern2 by done.
  split.
  - by destruct (filter _ font_glyphs).
  - by destruct (filter (fun g => gs_leftKerningGroup g = Some group)
                   font_glyphs).
Qed.

End GroupsFacts.

Section GuidelineFacts.

(** X18: the guidelines of a non-empty list replace those of the target, one
    for one and with the same position; every angle stored is in the range
    from 0 to 359, and flipping a stored angle again gives back the source
    angle modulo 360.  An empty list leaves the target as it is. *)
Theorem set_guidelines_angles (current : list Guideline)
    (guidelines : list GSGuideLine) :
  (guidelines = [] → set_guidelines current guidelines = current)
  ∧ (guidelines ≠ [] →
     Forall2 (fun source target =>
                (guideline_x target, guideline_y target)
                = guide_position source
                ∧ 0 ≤ guideline_angle target < 360
                ∧ (360 - guideline_angle target) `mod` 360
                  = guide_angle source `mod` 360)
             guidelines (set_guidelines current guidelines)).
Proof.
  split; [by intros ->|]. intros Hne.
  assert (Hmap : set_guidelines current guidelines
                 = (fun guideline =>
                      mkGuideline (guide_position guideline).1
                        (guide_position guideline).2
                        ((360 - guide_angle guideline) `mod` 360))
                   <$> guidelines) by (by destruct guidelines).
  rewrite Hmap. clear Hmap Hne. apply Forall2_fmap_r, Forall_Forall2_diag.
  apply Forall_forall. intros [[x y] a] _. simpl. split; [done|]. split.
  - apply Z.mod_pos_bound. lia.
  - rewrite Zminus_mod_idemp_r. replace (360 - (360 - a)) with a by lia. done.
Qed.

End GuidelineFacts.

Lemma to_ufos_groups_members_witness :
  let font_glyphs :=
    [mkGSGlyph "a" (Some "A") None; mkGSGlyph "x" None (Some "A");
     mkGSGlyph "aa" (Some "A") (Some "")] in
  groups (Groups.to_ufos_groups font_glyphs Examples.ufo_groups_A_X)
    !! ("public.kern1." +:+ "A")
  = Some ["a"; "aa"]
  ∧ groups (Groups.to_ufos_groups font_glyphs Examples.ufo_groups_A_X)
      !! ("public.kern2." +:+ "A")
    = Some ["x"].
Proof.
  intros font_glyphs.
  apply (to_ufos_groups_members font_glyphs Examples.ufo_groups_A_X "A").
  discriminate.
Defined.

Lemma set_guidelines_angles_witness :
  Forall2 (fun source target =>
             (guideline_x target, guideline_y target) = guide_position source
             ∧ 0 ≤ guideline_angle target < 360
             ∧ (360 - guideline_angle target) `mod` 360
               = guide_angle source `mod` 360)
          [mkGSGuideLine (10, 20) 90; mkGSGuideLine (0, 0) (-45)]
          (set_guidelines [] [mkGSGuideLine (10, 20) 90;
                              mkGSGuideLine (0, 0) (-45)]).
Proof.
  apply (set_guidelines_angles []
           [mkGSGuideLine (10, 20) 90; mkGSGuideLine (0, 0) (-45)]).
  discriminate.
Defined.

(** * Style names; class rules of collected groups *)

Section StyleNameFacts.
Import StyleMap.

Lemma join_nonempty (sep w : string) (ws : list string) :
  w ≠ "" → Str.join sep (w :: ws) ≠ "".
Proof.
  intros Hw. destruct w as [|c w]; [done|].
  destruct ws; simpl; [done|]. by rewrite append_cons.
Qed.

Lemma truthy_nonempty (l : list (option string)) :
  Forall (fun w => w ≠ "") (truthy l).
Proof.
  induction l as [|[[|c w]|] l IH]; simpl; try done. by constructor.
Qed.

Lemma str_or_nonempty (x y : string) : y ≠ "" → str_or x y ≠ "".
Proof. by destruct x. Qed.

(** X19: a style name is never empty, and it is [Regular] when no part is set
    and the style is not italic. *)
Theorem build_style_name_nonempty (width weight custom : option string)
    (is_italic : bool) :
  build_style_name width weight custom is_italic ≠ ""
  ∧ (truthy [custom; width; weight] = [] → is_italic = false →
     build_style_name width weight custom is_italic = "Regular").
Proof.
  split.
  - by apply str_or_nonempty.
  - unfold build_style_name. intros Hempty ->.
    change [custom; width; weight; Some ""]
      with ([custom; width; weight] ++ [Some ""]).
    unfold truthy in *. rewrite omap_app, Hempty. done.
Qed.

(** X20: the style-map style name is one of [regular], [bold], [italic] and
    [bold italic], and is fixed by the two flags alone. *)
Theorem build_stylemap_names_style_name (family_name style_name : string)
    (is_bold is_italic : bool) (linked_style : option string) :
  (build_stylemap_names family_name style_name is_bold is_italic
     linked_style).2
  = match is_bold, is_italic with
    | false, false => "regular"
    | true, false => "bold"
    | false, true => "italic"
    | true, true => "bold italic"
    end.
Proof. by destruct is_bold, is_italic. Qed.

End StyleNameFacts.

Section GroupsKerningFacts.
Import Groups Kerning.

Lemma strip_prefix_append (p s : string) : Str.strip_prefix p (p +:+ s) = Some s.
Proof.
  induction p as [|c p IH]; [done|].
  rewrite append_cons. simpl. by rewrite decide_True.
Qed.

Lemma re_match_prefix_group_append (p g : string) :
  g ≠ "" → Str.dot_star g = g →
  Str.re_match_prefix_group p (p +:+ g) = Some g.
Proof.
  intros Hne Hdot. unfold Str.re_match_prefix_group.
  rewrite strip_prefix_append, Hdot. by destruct g.
Qed.

(** X21: a class rule whose class is the right kerning group of some source
    glyph is loaded into the font that holds the collected groups: the
    rule is stored under the group name, no warning is logged, and the
    conflict pass leaves it in place. *)
Theorem to_ufos_groups_class_rule_loaded (font_glyphs : list GSGlyph)
    (ufo : Font) (glyph : GSGlyph) (group right : string) (val : Z) :
  glyph ∈ font_glyphs →
  gs_rightKerningGroup glyph = Some group →
  group ≠ "" →
  Str.dot_star group = group →
  Str.re_match_prefix_group "@MMK_R_" right = None →
  let ufo' := to_ufos_groups font_glyphs ufo in
  load_kerning ufo' [("@MMK_L_" +:+ group, [(right, val)])]
  = Some (set_kerning ufo'
            (<[("public.kern1." +:+ group, right) := val]> (kerning ufo')),
          []).
Proof.
  intros Hin Hright Hne Hdot Hplain ufo'.
  assert (Hgroup : ∃ members,
            groups ufo' !! ("public.kern1." +:+ group) = Some members).
  { subst ufo'. unfold to_ufos_groups, add_groups_to_ufo. simpl.
    rewrite lookup_union, foldl_add_glyph_to_groups_lookup.
    rewrite contribution_kern1 by done. rewrite lookup_empty.
    destruct (filter _ font_glyphs) as [|m ms] eqn:E.
    - assert (glyph ∈ filter (fun g => gs_rightKerningGroup g = Some group)
                         font_glyphs) as Hf
        by (by apply list_elem_of_filter).
      rewrite E in Hf. by apply elem_of_nil in Hf.
    - simpl. destruct (groups ufo !! _); by eexists. }
  destruct Hgroup as [members Hgroup]. clearbody ufo'.
  unfold load_kerning. cbn [foldl]. unfold load_left.
  rewrite re_match_prefix_group_append by done. cbv zeta. rewrite Hgroup.
  cbn [foldl]. unfold load_right. rewrite Hplain. simpl.
  unfold remove_rule_if_conflict. simpl.
  rewrite lookup_insert_eq, Hgroup.
  rewrite (scan_members_no_conflict _ _ _ _ val) by done.
  simpl. by rewrite bool_decide_eq_false_2 by auto.
Qed.

End GroupsKerningFacts.

Lemma build_style_name_nonempty_witness :
  StyleMap.build_style_name (Some "") None (Some "") false = "Regular".
Proof.
  apply (build_style_name_nonempty (Some "") None (Some "") false).
  - reflexivity.
  - reflexivity.
Defined.

Lemma to_ufos_groups_class_rule_loaded_witness :
  let font_glyphs :=
    [mkGSGlyph "a" (Some "A") None; mkGSGlyph "x" None (Some "X")] in
  let ufo' := Groups.to_ufos_groups font_glyphs (mkFont "Regular" ∅ ∅ ∅ []) in
  Kerning.load_kerning ufo' [("@MMK_L_" +:+ "A", [("x", 10)])]
  = Some (set_kerning ufo'
            (<[("public.kern1." +:+ "A", "x") := 10]> (kerning ufo')),
          []).
Proof.
  intros font_glyphs ufo'.
  apply (to_ufos_groups_class_rule_loaded font_glyphs
           (mkFont "Regular" ∅ ∅ ∅ []) (mkGSGlyph "a" (Some "A") None)
           "A" "x" 10).
  - apply list_elem_of_here.
  - reflexivity.
  - discriminate.
  - reflexivity.
  - reflexivity.
Defined.
